(** * Tensor diagrams: the builder and the formula derivation of
    [src/diagrams.ts], embedded and verified.

    Conventions of the embedding.
    - A JavaScript [number] that holds a grid coordinate, an order, a size
      or a length is an integer of [Z].
    - Tensor objects are created by [addTensor], pushed on [this.tensors]
      and never removed; each call makes a fresh object with a fresh
      [indices] array of fresh index objects, and arrays handed to the
      constructor are taken to share no object either.  The array
      [this.tensors] is therefore the store of tensor objects and a
      reference to a tensor object is its position in that array ([ref]).
      Mutating an object is updating the store at its reference, so every
      holder of the reference (the [relevantTensors] array, [dotTensor], a
      contraction's [source] and [target]) sees the mutation.
    - [undefined] where the code can produce it is [None].
    - A method is a computation over the diagram that either returns or
      throws; the diagram reached when it throws is part of the result. *)

From Stdlib Require Import ZArith.
From stdpp Require Import base decidable option list strings pretty.

Local Open Scope Z_scope.

(** ** Data model ([interfaces.ts] is not part of the sources; the types
    below are read off their uses in [diagrams.ts]) *)

Module Pos.
(** Modelled from the spec: the type [Pos] of [interfaces.ts], the union of
    the four sides.  [outside raw] is a run-time value that is none of the
    four literals (the declaration does not exclude it at run time), known
    by its rendering [raw] in a template literal. *)
Inductive t := left | right | up | down | outside (raw : string).

Definition render (p : t) : string :=
  match p with
  | left => "left"
  | right => "right"
  | up => "up"
  | down => "down"
  | outside raw => raw
  end.
End Pos.

#[global] Instance Pos_eq_dec : EqDecision Pos.t.
Proof. solve_decision. Defined.

(** Modelled from the spec: [Shape] and [LabelPos] of [interfaces.ts] are
    unions of string literals; they are kept as the strings they are. *)
Definition Shape := string.
Definition LabelPos := string.

Module XY.
Record t := mk { x : Z; y : Z }.
End XY.

Module RelPos.
(** ["start" | "right" | "down" | XY] *)
Inductive t := start | right | down | at_ (xy : XY.t).
End RelPos.

Module Index.
Record t := mk { name : string; pos : Pos.t; order : Z; showLabel : bool }.

Definition setName (s : string) (ix : t) : t :=
  mk s (pos ix) (order ix) (showLabel ix).
End Index.

#[global] Instance Index_eq_dec : EqDecision Index.t.
Proof. solve_decision. Defined.

Module Tensor.
Record t := mk {
  x : Z;
  y : Z;
  name : string;
  shape : Shape;
  showLabel : bool;
  labPos : LabelPos;
  size : Z;
  indices : list Index.t;
  rectHeight : Z
}.

Definition setIndices (l : list Index.t) (tn : t) : t :=
  mk (x tn) (y tn) (name tn) (shape tn) (showLabel tn) (labPos tn)
     (size tn) l (rectHeight tn).
End Tensor.

Module TensorOpts.
Record t := mk {
  shape : option Shape;
  showLabel : option bool;
  labelPos : option LabelPos;
  size : option Z
}.

(** [{}] *)
Definition empty : t := mk None None None None.
End TensorOpts.

(** A reference to a tensor object: its position in [this.tensors]. *)
Abbreviation ref := nat (only parsing).

Module Contraction.
Record t := mk {
  source : option ref;
  target : option ref;
  name : string;
  pos : Pos.t
}.
End Contraction.

(** [opposite]: the lookup of [pos] in the four-entry [mapping]; a key that
    is not in the mapping reads [undefined] (names that every object
    inherits aside). *)
Definition opposite (pos : Pos.t) : Pos.t :=
  match pos with
  | Pos.left => Pos.right
  | Pos.right => Pos.left
  | Pos.up => Pos.down
  | Pos.down => Pos.up
  | Pos.outside _ => Pos.outside "undefined"
  end.

(** [createTensor], with every defaulted parameter passed explicitly. *)
Definition createTensor (x y : Z) (name : string) (indices : list Index.t)
    (shape : Shape) (showLabel : bool) (labPos : LabelPos) (size : Z)
    : Tensor.t :=
  let rectHeight :=
    Z.max
      (Z.of_nat (length (filter (λ index, Index.pos index = Pos.right) indices)))
      (Z.of_nat (length (filter (λ index, Index.pos index = Pos.left) indices)))
  in
  Tensor.mk x y name shape showLabel labPos size indices rectHeight.

(** What the code can throw: [new Error(message)] from a [throw] statement,
    and the run time's [TypeError] on reading a property of [undefined]. *)
Inductive exn := Error (message : string) | TypeError.

Inductive outcome (A : Type) := Return (a : A) | Throw (e : exn).
Arguments Return {A} a.
Arguments Throw {A} e.

(** The two [throw] statements of [addSummation]. *)
Definition NoMatchingIndexError (name : string) : exn :=
  Error ("addSummation error: no tensors with an index " +:+ name).

Definition InvalidIndexPositionError (pos : Pos.t) (name : string) : exn :=
  Error ("Invalid position " +:+ Pos.render pos +:+ " for index " +:+ name).

(** [s.join(sep)] on an array of strings. *)
Definition join (sep : string) (l : list string) : string :=
  String.concat sep l.

(** The positions of the elements of an array that satisfy [P], counted from
    [i]: [array.filter(P)] on an array of objects, as references. *)
Fixpoint refsFrom {A} (P : A → Prop) `{∀ a, Decision (P a)}
    (i : nat) (l : list A) : list ref :=
  match l with
  | [] => []
  | a :: l' =>
      if decide (P a) then i :: refsFrom P (S i) l' else refsFrom P (S i) l'
  end.

(** [tensor.indices.some((index) => index.name === name)] *)
Definition carries (name : string) (tensor : Tensor.t) : Prop :=
  Exists (λ index, Index.name index = name) (Tensor.indices tensor).

#[global] Instance carries_dec name tensor : Decision (carries name tensor).
Proof. unfold carries. apply _. Defined.

(** The names that the indices of a tensor have. *)
Definition indexNames (tensor : Tensor.t) : list string :=
  Index.name <$> Tensor.indices tensor.

Section Diagram.
(** Modelled from the spec: [Line] of [interfaces.ts], an auxiliary segment
    that no algorithm inspects; it is a parameter. *)
Context {Line : Type}.

Record TensorDiagramCore := mkDiagram {
  tensors : list Tensor.t;
  contractions : list Contraction.t;
  lines : list Line;
  width : Z;
  height : Z
}.

(** [constructor(tensors, contractions, lines)] *)
Definition constructor (ts : list Tensor.t) (cs : list Contraction.t)
    (ls : list Line) : TensorDiagramCore :=
  mkDiagram ts cs ls 300 300.

(** [static new()] *)
Definition new : TensorDiagramCore := constructor [] [] [].

(** *** Methods as computations over [this] *)

Definition M (A : Type) : Type :=
  TensorDiagramCore → outcome A * TensorDiagramCore.

Definition ret {A} (a : A) : M A := λ d, (Return a, d).

Definition throw {A} (e : exn) : M A := λ d, (Throw e, d).

Definition bind {A B} (m : M A) (k : A → M B) : M B :=
  λ d, match m d with
       | (Return a, d') => k a d'
       | (Throw e, d') => (Throw e, d')
       end.

Definition get : M TensorDiagramCore := λ d, (Return d, d).

Definition withTensors (ts : list Tensor.t) (d : TensorDiagramCore)
    : TensorDiagramCore :=
  mkDiagram ts (contractions d) (lines d) (width d) (height d).

Definition withContractions (cs : list Contraction.t)
    (d : TensorDiagramCore) : TensorDiagramCore :=
  mkDiagram (tensors d) cs (lines d) (width d) (height d).

Definition setTensors (ts : list Tensor.t) : M unit :=
  λ d, (Return tt, withTensors ts d).

Definition setContractions (cs : list Contraction.t) : M unit :=
  λ d, (Return tt, withContractions cs d).
End Diagram.

Arguments TensorDiagramCore Line : clear implicits.
Arguments M Line A : clear implicits.

#[global] Instance M_ret {Line} : MRet (M Line) := λ A, ret.
#[global] Instance M_bind {Line} : MBind (M Line) := λ A B k m, bind m k.

(** ** The methods of [TensorDiagramCore] *)

Section Methods.
Context {Line : Type}.
Implicit Types d : TensorDiagramCore Line.

(** [this.tensors.length] *)
Definition tensorsLength : M Line Z :=
  d ← get; mret (Z.of_nat (length (tensors d))).

(** [this.tensors[i]] as a reference: [undefined] out of range. *)
Definition tensorAt d (i : Z) : option ref :=
  if decide (0 ≤ i < Z.of_nat (length (tensors d)))
  then Some (Z.to_nat i) else None.

(** [get lastTensor()]: [this.tensors[this.tensors.length - 1]]. *)
Definition lastTensor : M Line (option ref) :=
  d ← get; n ← tensorsLength; mret (tensorAt d (n - 1)).

(** Reading the property [f] of the tensor object [o]; the read of a
    property of [undefined] throws.  (The references that the code holds
    always point into the array.) *)
Definition prop {A} (o : option ref) (f : Tensor.t → A) : M Line A :=
  d ← get;
  match o ≫= (λ r, tensors d !! r) with
  | Some tensor => mret (f tensor)
  | None => throw TypeError
  end.

(** Mutating the tensor object [o] in place. *)
Definition mutate (o : option ref) (f : Tensor.t → Tensor.t) : M Line unit :=
  d ← get;
  match o with
  | Some r => setTensors (alter f r (tensors d))
  | None => throw TypeError
  end.

(** [this.tensors.indexOf(tensor)] for a tensor object given by reference. *)
Definition indexOf (tensor : ref) : M Line Z :=
  d ← get;
  mret (if decide (tensor < length (tensors d))%nat
        then Z.of_nat tensor else -1).

(** [names.map((s, i) => ({ name: s, pos, order: i, showLabel: true }))] *)
Definition sideIndices (pos : Pos.t) (names : list string) : list Index.t :=
  imap (λ i s, Index.mk s pos (Z.of_nat i) true) names.

(** [addTensor].  [position] is [None] when [undefined] is passed, which
    the non-null assertion in [addSummation] lets through. *)
Definition addTensor (name : string) (position : option RelPos.t)
    (left right up down : list string) (opts : TensorOpts.t)
    : M Line unit :=
  pos ← match position with
        | Some RelPos.start => mret (Some (XY.mk 0 0))
        | Some RelPos.right =>
            last ← lastTensor; x ← prop last Tensor.x;
            last ← lastTensor; y ← prop last Tensor.y;
            mret (Some (XY.mk (x + 1) y))
        | Some RelPos.down =>
            last ← lastTensor; x ← prop last Tensor.x;
            last ← lastTensor; y ← prop last Tensor.y;
            mret (Some (XY.mk x (y + 1)))
        | Some (RelPos.at_ xy) => mret (Some xy)
        | None => mret None
        end;
  let inds1 := sideIndices Pos.left left in
  let inds2 := sideIndices Pos.right right in
  let inds3 := sideIndices Pos.up up in
  let inds4 := sideIndices Pos.down down in
  let indices := inds1 ++ inds2 ++ inds3 ++ inds4 in
  let bigTensor :=
    bool_decide (1 < length inds1)%nat || bool_decide (1 < length inds2)%nat in
  match pos with
  | None => throw TypeError
  | Some pos =>
      let tensor :=
        createTensor (XY.x pos) (XY.y pos) name indices
          (default (if bigTensor then "rectangle" else "circle")
                   (TensorOpts.shape opts))
          (default true (TensorOpts.showLabel opts))
          (default "up" (TensorOpts.labelPos opts))
          (default 20 (TensorOpts.size opts)) in
      d ← get; setTensors (tensors d ++ [tensor])
  end.

(** [addContraction]; the default [pos = "up"] is passed by the caller. *)
Definition addContraction (i j : Z) (name : string) (pos : Pos.t)
    : M Line unit :=
  d ← get;
  let contraction :=
    Contraction.mk (tensorAt d i) (tensorAt d j) name pos in
  setContractions (contractions d ++ [contraction]).

(** [{ shape: "dot", showLabel: false }] *)
Definition dotOpts : TensorOpts.t :=
  TensorOpts.mk (Some "dot") (Some false) None None.

(** [this.tensors.filter((tensor) => tensor.indices.some(...))] *)
Definition relevantTensors (name : string) d : list ref :=
  refsFrom (carries name) 0%nat (tensors d).

(** [array.forEach((a, i) => f(a, i))], the counter starting at [i]. *)
Fixpoint forEachFrom {A} (i : nat) (l : list A) (f : A → nat → M Line unit)
    : M Line unit :=
  match l with
  | [] => mret tt
  | a :: l' => f a i;; forEachFrom (S i) l' f
  end.

(** The callback of the [forEach] in the last branch of [addSummation]. *)
Definition mergeIntoDot (name : string) (dotTensor : option ref)
    (tensor : ref) (i : nat) : M Line unit :=
  tensorIndices ← prop (Some tensor) Tensor.indices;
  match list_find (λ ind, Index.name ind = name) tensorIndices with
  | None => throw TypeError
  | Some (k, index) =>
      let newName := name +:+ pretty i in
      dotIndices ← prop dotTensor Tensor.indices;
      let dotIndex :=
        Index.mk newName (opposite (Index.pos index))
          (Z.of_nat (length (filter
             (λ ind, Index.pos ind = opposite (Index.pos index)) dotIndices)))
          false in
      mutate dotTensor (λ t, Tensor.setIndices (Tensor.indices t ++ [dotIndex]) t);;
      mutate (Some tensor)
        (λ t, Tensor.setIndices
                (alter (Index.setName newName) k (Tensor.indices t)) t);;
      source ← indexOf tensor;
      n ← tensorsLength;
      addContraction source (n - 1) newName Pos.up
  end.

(** [addSummation(name, position?)] *)
Definition addSummation (name : string) (position : option XY.t)
    : M Line unit :=
  d ← get;
  match relevantTensors name d with
  | [] => throw (NoMatchingIndexError name)
  | [oneTensor] =>
      oneIndices ← prop (Some oneTensor) Tensor.indices;
      match head (filter (λ index, Index.name index = name) oneIndices) with
      | None => throw TypeError
      | Some indOne =>
          match Index.pos indOne with
          | Pos.left =>
              x ← prop (Some oneTensor) Tensor.x;
              y ← prop (Some oneTensor) Tensor.y;
              addTensor "dot"
                (Some (RelPos.at_ (XY.mk (x - 1) (y + Index.order indOne))))
                [] [name] [] [] dotOpts
          | Pos.right =>
              x ← prop (Some oneTensor) Tensor.x;
              y ← prop (Some oneTensor) Tensor.y;
              addTensor "dot"
                (Some (RelPos.at_ (XY.mk (x + 1) (y + Index.order indOne))))
                [name] [] [] [] dotOpts
          | Pos.up =>
              x ← prop (Some oneTensor) Tensor.x;
              y ← prop (Some oneTensor) Tensor.y;
              addTensor "dot"
                (Some (RelPos.at_ (XY.mk (x + Index.order indOne) (y - 1))))
                [] [] [] [name] dotOpts
          | Pos.down =>
              x ← prop (Some oneTensor) Tensor.x;
              y ← prop (Some oneTensor) Tensor.y;
              addTensor "dot"
                (Some (RelPos.at_ (XY.mk (x + Index.order indOne) (y + 1))))
                [] [] [name] [] dotOpts
          | Pos.outside _ =>
              throw (InvalidIndexPositionError (Index.pos indOne) name)
          end;;
          source ← indexOf oneTensor;
          n ← tensorsLength;
          addContraction source (n - 1) name Pos.up
      end
  | [tensor0; tensor1] =>
      source ← indexOf tensor0;
      target ← indexOf tensor1;
      addContraction source target name Pos.up
  | relevant =>
      addTensor "dot" (RelPos.at_ <$> position) [] [] [] [] dotOpts;;
      dotTensor ← lastTensor;
      forEachFrom 0 relevant (mergeIntoDot name dotTensor)
  end.

(** [setSize] *)
Definition setSize (w h : Z) : M Line unit :=
  λ d, (Return tt, mkDiagram (tensors d) (contractions d) (lines d) w h).

(** The loop of [toFormulaEinsum] that collects the free names. *)
Definition collectFree (indicesContracted indicesAll : list string)
    : list string :=
  foldl (λ indicesFree name,
           if decide ((name ∉ indicesContracted) ∧ (name ∉ indicesFree))
           then (indicesFree ++ [name]) else indicesFree)
        [] indicesAll.

(** [toFormulaEinsum] *)
Definition toFormulaEinsum d : string :=
  let indiceNames := indexNames <$> tensors d in
  let tensorNames := Tensor.name <$> tensors d in
  let indicesAll := mjoin indiceNames in
  let indicesContracted := Contraction.name <$> contractions d in
  let indicesFree := collectFree indicesContracted indicesAll in
  let indicesPerTensorStr := join "," (join "" <$> indiceNames) in
  let indicesFreeStr := join "" indicesFree in
  let tensorNamesStr := join ", " tensorNames in
  "einsum('" +:+ indicesPerTensorStr +:+ "->" +:+ indicesFreeStr +:+ "', "
    +:+ tensorNamesStr +:+ ")".

(** [toFormulaLaTeX] *)
Definition toFormulaLaTeX d : string :=
  let tensorsLaTeX :=
    (λ tensor, Tensor.name tensor +:+ "_{" +:+ join "" (indexNames tensor) +:+ "}")
      <$> tensors d in
  let indicesContracted := Contraction.name <$> contractions d in
  "\sum_{" +:+ join "" indicesContracted +:+ "} " +:+ join " " tensorsLaTeX.

(** [looseIndices] *)
Definition looseIndices d : list (list Index.t) :=
  let contractedIndicesNames := Contraction.name <$> contractions d in
  (λ tensor,
     filter (λ index, Index.name index ∉ contractedIndicesNames)
            (Tensor.indices tensor))
    <$> tensors d.
End Methods.

(** ** The vocabulary of the statements *)

Section Vocabulary.
Context {Line : Type}.
Implicit Types d : TensorDiagramCore Line.

(** The names of the recorded contractions, in recording order. *)
Definition contractionNames d : list string :=
  Contraction.name <$> contractions d.

(** All index names of the diagram, tensor after tensor. *)
Definition allIndexNames d : list string :=
  mjoin (indexNames <$> tensors d).

(** The names of the indices that [looseIndices] returns. *)
Definition looseNames d : list string :=
  mjoin (fmap Index.name <$> looseIndices d).

(** The free names as the specification words them: the entries of the
    flattened list of names that are in no contraction and were not
    encountered earlier in that list, in the order of the list. *)
Definition firstEncounters (contracted all : list string) : list string :=
  omap id
    (imap (λ i s, if decide ((s ∉ contracted) ∧ (s ∉ take i all))
                  then Some s else None)
          all).

Definition freeNames d : list string :=
  firstEncounters (contractionNames d) (allIndexNames d).

(** A tensor with each index named [old] renamed to [new]. *)
Definition renamed (old new : string) (tensor : Tensor.t) : Tensor.t :=
  Tensor.setIndices
    ((λ index, if decide (Index.name index = old)
               then Index.setName new index else index)
       <$> Tensor.indices tensor)
    tensor.

(** The number of indices named [name] that a tensor has. *)
Definition occurrences (name : string) (tensor : Tensor.t) : nat :=
  length (filter (λ index, Index.name index = name) (Tensor.indices tensor)).

(** The diagram after the single-tensor branch of [addSummation]: the dot
    pushed on the tensors and one contraction from the tensor [r] to it. *)
Definition withDot d (r : ref) (name : string) (x y : Z) (side : Pos.t)
    (rectHeight : Z) : TensorDiagramCore Line :=
  mkDiagram
    (tensors d ++
     [Tensor.mk x y "dot" "dot" false "up" 20
        [Index.mk name side 0 true] rectHeight])
    (contractions d ++
     [Contraction.mk (Some r) (Some (length (tensors d))) name Pos.up])
    (lines d) (width d) (height d).

(** Every tensor of [d] is still in [d'], at the same place and with the
    [rectHeight] it had. *)
Definition keepsRectHeights d d' : Prop :=
  ∀ r tensor,
    tensors d !! r = Some tensor →
    ∃ tensor', tensors d' !! r = Some tensor'
               ∧ Tensor.rectHeight tensor' = Tensor.rectHeight tensor.

(** A method that, returning or throwing, leaves the [rectHeight] of
    every existing tensor as it was. *)
Definition framed {A} (m : M Line A) : Prop :=
  ∀ d, keepsRectHeights d (snd (m d)).
End Vocabulary.

(** ** Diagrams built through the builder, used as concrete inputs *)

(** [new().addTensor("A", "start", ["i"])] *)
Definition diagramA {Line} : TensorDiagramCore Line :=
  snd (addTensor "A" (Some RelPos.start) ["i"] [] [] [] TensorOpts.empty new).

(** Three tensors that share the index ["k"]:
    [new().addTensor("A", "start", ["k"]).addTensor("B", "right", [], [], ["k"])
          .addTensor("C", "right", [], ["k", "l"])] *)
Definition diagramStar {Line} : TensorDiagramCore Line :=
  snd ((addTensor "A" (Some RelPos.start) ["k"] [] [] [] TensorOpts.empty;;
        addTensor "B" (Some RelPos.right) [] [] ["k"] [] TensorOpts.empty;;
        addTensor "C" (Some RelPos.right) [] ["k"; "l"] [] [] TensorOpts.empty)
       new).

(** One tensor at [(2, 3)] with the index ["i"] on its upper side:
    [new().addTensor("A", { x: 2, y: 3 }, [], [], ["i"])] *)
Definition diagramUp {Line} : TensorDiagramCore Line :=
  snd (addTensor "A" (Some (RelPos.at_ (XY.mk 2 3))) [] [] ["i"] []
         TensorOpts.empty new).

(** A contraction under a name that no index has:
    [new().addTensor("A", "start", ["i"]).addContraction(0, 0, "j")] *)
Definition diagramDangling {Line} : TensorDiagramCore Line :=
  snd ((addTensor "A" (Some RelPos.start) ["i"] [] [] [] TensorOpts.empty;;
        addContraction 0 0 "j" Pos.up) new).

(** Two tensors contracted over ["j"]:
    [new().addTensor("A", "start", [], [], [], ["j"])
          .addTensor("B", "down", [], [], ["j"]).addSummation("j")] *)
Definition diagramPair {Line} : TensorDiagramCore Line :=
  snd ((addTensor "A" (Some RelPos.start) [] [] [] ["j"] TensorOpts.empty;;
        addTensor "B" (Some RelPos.down) [] [] ["j"] [] TensorOpts.empty;;
        addSummation "j" None) new).


(** Three tensors that share the index ["k"], the first with two indices of
    that name:
    [new().addTensor("A", "start", ["k"], ["k"]).addTensor("B", "right", ["k"])
          .addTensor("C", "right", ["k"])] *)
Definition diagramDouble {Line} : TensorDiagramCore Line :=
  snd ((addTensor "A" (Some RelPos.start) ["k"] ["k"] [] [] TensorOpts.empty;;
        addTensor "B" (Some RelPos.right) ["k"] [] [] [] TensorOpts.empty;;
        addTensor "C" (Some RelPos.right) ["k"] [] [] [] TensorOpts.empty) new).

(** ** The vocabulary of the further properties *)

(** The orders of the indices that sit on one side, in array order. *)
Definition sideOrders (side : Pos.t) (indices : list Index.t) : list Z :=
  Index.order <$> filter (λ index, Index.pos index = side) indices.

(** On every side the orders are [0, 1, ...], in array order. *)
Definition denseOrders (indices : list Index.t) : Prop :=
  ∀ side,
    sideOrders side indices =
    Z.of_nat <$> seq 0 (length (filter (λ index, Index.pos index = side) indices)).

(** What an index is apart from its name. *)
Definition indexShape (index : Index.t) : Pos.t * Z * bool :=
  (Index.pos index, Index.order index, Index.showLabel index).

(** [tensor'] is [tensor] up to the names of its indices. *)
Definition sameButNames (tensor tensor' : Tensor.t) : Prop :=
  tensor' = Tensor.setIndices (Tensor.indices tensor') tensor
  ∧ indexShape <$> Tensor.indices tensor' = indexShape <$> Tensor.indices tensor.

(** Where the single-tensor branch of [addSummation] puts the dot for the
    index [index] of [tensor]: coordinates, the side of the dot's index
    and the dot's [rectHeight]; [None] for a position that is no side. *)
Definition dotPlacement (tensor : Tensor.t) (index : Index.t)
    : option (Z * Z * Pos.t * Z) :=
  let x := Tensor.x tensor in
  let y := Tensor.y tensor in
  let order := Index.order index in
  match Index.pos index with
  | Pos.left => Some (x - 1, y + order, Pos.right, 1)
  | Pos.right => Some (x + 1, y + order, Pos.left, 1)
  | Pos.up => Some (x + order, y - 1, Pos.down, 0)
  | Pos.down => Some (x + order, y + 1, Pos.up, 0)
  | Pos.outside _ => None
  end.

Section FurtherVocabulary.
Context {Line : Type}.
Implicit Types d : TensorDiagramCore Line.

(** A contraction whose two ends are tensors of [d] that both carry an
    index of the contraction's name. *)
Definition linked d (c : Contraction.t) : Prop :=
  ∃ r r' tensor tensor',
    Contraction.source c = Some r ∧ Contraction.target c = Some r'
    ∧ tensors d !! r = Some tensor ∧ tensors d !! r' = Some tensor'
    ∧ carries (Contraction.name c) tensor
    ∧ carries (Contraction.name c) tensor'.

(** [d'] continues [d]: the tensors of [d] are still there, in place and
    the same up to the names of their indices; the contractions of [d] are
    the first contractions of [d']; the lines are the same. *)
Definition continues d d' : Prop :=
  (∀ r tensor,
     tensors d !! r = Some tensor →
     ∃ tensor', tensors d' !! r = Some tensor' ∧ sameButNames tensor tensor')
  ∧ (∃ added, contractions d' = contractions d ++ added)
  ∧ lines d' = lines d.

(** The text of [toFormulaEinsum] for the tensors of [d] with [free] as the
    output names. *)
Definition einsumWith d (free : list string) : string :=
  "einsum('"
  +:+ join "," ((λ tensor, join "" (indexNames tensor)) <$> tensors d)
  +:+ "->" +:+ join "" free +:+ "', "
  +:+ join ", " (Tensor.name <$> tensors d) +:+ ")".

(** The factors of [toFormulaLaTeX], one per tensor. *)
Definition latexFactors d : string :=
  join " "
    ((λ tensor,
        Tensor.name tensor +:+ "_{" +:+ join "" (indexNames tensor) +:+ "}")
       <$> tensors d).
End FurtherVocabulary.

(** ** Facts about the building blocks *)

Lemma carries_indexNames name tensor :
  carries name tensor ↔ name ∈ indexNames tensor.
Proof.
  unfold carries, indexNames. rewrite Exists_exists, list_elem_of_fmap.
  split; intros (index & ? & ?); exists index; auto.
Qed.

Section RefsFrom.
Context {A : Type} (P : A → Prop) `{∀ a, Decision (P a)}.

Lemma refsFrom_nil i l : refsFrom P i l = [] ↔ Forall (λ a, ¬ P a) l.
Proof.
  revert i. induction l as [|a l IH]; intros i; simpl.
  - split; auto.
  - destruct (decide (P a)) as [Ha|Ha].
    + split; [discriminate|]. intros Hall. by inversion Hall.
    + rewrite IH. split; [by constructor|]. intros Hall. by inversion Hall.
Qed.

Lemma elem_of_refsFrom i l r :
  r ∈ refsFrom P i l ↔ (i ≤ r)%nat ∧ ∃ a, l !! (r - i)%nat = Some a ∧ P a.
Proof.
  revert i. induction l as [|a l IH]; intros i; simpl.
  - rewrite elem_of_nil. split; [done|]. by intros (_ & ? & ? & _).
  - assert (Htail : r ∈ refsFrom P (S i) l ↔
              (i < r)%nat ∧ ∃ a', (a :: l) !! (r - i)%nat = Some a' ∧ P a').
    { rewrite IH. split.
      - intros (Hle & a' & Hlook & Ha'). split; [lia|]. exists a'.
        split; [|done]. replace (r - i)%nat with (S (r - S i)) by lia. done.
      - intros (Hlt & a' & Hlook & Ha'). split; [lia|]. exists a'.
        split; [|done]. replace (r - i)%nat with (S (r - S i)) in Hlook by lia.
        done. }
    destruct (decide (P a)) as [Ha|Ha].
    + rewrite elem_of_cons, Htail. split.
      * intros [->|(? & ?)]; [|split; [lia|done]].
        split; [done|]. exists a. by rewrite Nat.sub_diag.
      * intros (Hle & a' & Hlook & Ha').
        destruct (decide (r = i)) as [->|]; [by left|right].
        split; [lia|]. by exists a'.
    + rewrite Htail. split.
      * intros (? & ?). split; [lia|done].
      * intros (Hle & a' & Hlook & Ha').
        destruct (decide (r = i)) as [->|]; [|split; [lia|by exists a']].
        rewrite Nat.sub_diag in Hlook. by simplify_eq/=.
Qed.

Lemma refsFrom_NoDup i l : NoDup (refsFrom P i l).
Proof.
  revert i. induction l as [|a l IH]; intros i; simpl; [constructor|].
  destruct (decide (P a)); [|done].
  constructor; [|done]. rewrite elem_of_refsFrom. lia.
Qed.

Lemma length_refsFrom i l : length (refsFrom P i l) = length (filter P l).
Proof.
  revert i. induction l as [|a l IH]; intros i; simpl; [done|].
  rewrite filter_cons. destruct (decide (P a)); simpl; by rewrite IH.
Qed.
End RefsFrom.

Section Facts.
Context {Line : Type}.
Implicit Types d : TensorDiagramCore Line.

(** [relevantTensors] lists, without repetition, the references of the
    tensors that carry an index named [name]. *)
Lemma elem_of_relevantTensors name d r :
  r ∈ relevantTensors name d ↔
  ∃ tensor, tensors d !! r = Some tensor ∧ carries name tensor.
Proof.
  unfold relevantTensors. rewrite elem_of_refsFrom, Nat.sub_0_r.
  split; [by intros (_ & ?)|]. intros ?; split; [lia|done].
Qed.

Lemma relevantTensors_NoDup name d : NoDup (relevantTensors name d).
Proof. apply refsFrom_NoDup. Qed.

Lemma length_relevantTensors name d :
  length (relevantTensors name d) = length (filter (carries name) (tensors d)).
Proof. apply length_refsFrom. Qed.

Lemma tensorAt_in_range d (r : ref) :
  (r < length (tensors d))%nat → tensorAt d (Z.of_nat r) = Some r.
Proof.
  intros Hr. unfold tensorAt. rewrite decide_True by lia.
  by rewrite Nat2Z.id.
Qed.

Lemma tensorAt_out_of_range d (i : Z) :
  ¬ (0 ≤ i < Z.of_nat (length (tensors d))) → tensorAt d i = None.
Proof. intros Hi. unfold tensorAt. by rewrite decide_False. Qed.

Lemma run_bind {A B} (m : M Line A) (k : A → M Line B) d :
  (m ≫= k) d =
  match m d with
  | (Return a, d') => k a d'
  | (Throw e, d') => (Throw e, d')
  end.
Proof. reflexivity. Qed.

Lemma run_prop {A} (o : option ref) (f : Tensor.t → A) d tensor :
  o ≫= (λ r, tensors d !! r) = Some tensor →
  prop o f d = (Return (f tensor), d).
Proof. intros Ho. unfold prop. rewrite run_bind. cbn. by rewrite Ho. Qed.

Lemma run_prop_undefined {A} (f : Tensor.t → A) d :
  prop None f d = (Throw TypeError, d).
Proof. reflexivity. Qed.

Lemma run_indexOf (r : ref) d :
  (r < length (tensors d))%nat → indexOf r d = (Return (Z.of_nat r), d).
Proof.
  intros Hr. unfold indexOf. rewrite run_bind. cbn. by rewrite decide_True.
Qed.

Lemma run_tensorsLength d :
  tensorsLength d = (Return (Z.of_nat (length (tensors d))), d).
Proof. reflexivity. Qed.

Lemma run_mutate (r : ref) (f : Tensor.t → Tensor.t) d :
  mutate (Some r) f d = (Return tt, withTensors (alter f r (tensors d)) d).
Proof. reflexivity. Qed.

Lemma run_addContraction i j name pos d :
  addContraction i j name pos d =
  (Return tt,
   withContractions
     (contractions d ++ [Contraction.mk (tensorAt d i) (tensorAt d j) name pos])
     d).
Proof. reflexivity. Qed.

Lemma run_addTensor_at name xy left right up down opts d :
  addTensor name (Some (RelPos.at_ xy)) left right up down opts d =
  (Return tt,
   withTensors
     (tensors d ++
      [createTensor (XY.x xy) (XY.y xy) name
         (sideIndices Pos.left left ++ sideIndices Pos.right right ++
          sideIndices Pos.up up ++ sideIndices Pos.down down)
         (default
            (if bool_decide (1 < length left)%nat
                || bool_decide (1 < length right)%nat
             then "rectangle" else "circle")
            (TensorOpts.shape opts))
         (default true (TensorOpts.showLabel opts))
         (default "up" (TensorOpts.labelPos opts))
         (default 20 (TensorOpts.size opts))])
     d).
Proof.
  unfold addTensor, sideIndices. cbn. by rewrite !length_imap.
Qed.

Lemma run_addTensor_undefined name left right up down opts d :
  addTensor name None left right up down opts d = (Throw TypeError, d).
Proof. reflexivity. Qed.

Lemma run_lastTensor d :
  lastTensor d = (Return (tensorAt d (Z.of_nat (length (tensors d)) - 1)), d).
Proof. reflexivity. Qed.

Lemma tensorAt_last d :
  tensorAt d (Z.of_nat (length (tensors d)) - 1) =
  match tensors d with [] => None | _ => Some (pred (length (tensors d))) end.
Proof.
  unfold tensorAt. destruct (tensors d) as [|t ts]; simpl length.
  - by rewrite decide_False by lia.
  - rewrite decide_True by lia. f_equal. lia.
Qed.
End Facts.

(** One statement of a method: run the computation at the head of the
    sequence with the equation [lem], then go on with the rest. *)
Tactic Notation "js_step" uconstr(lem) :=
  rewrite run_bind, lem; cbv beta iota.

Section Running.
Context {Line : Type}.
Implicit Types d : TensorDiagramCore Line.

Lemma lastTensor_lookup d :
  tensorAt d (Z.of_nat (length (tensors d)) - 1) ≫= (λ r, tensors d !! r)
  = last (tensors d).
Proof.
  rewrite tensorAt_last, last_lookup.
  by destruct (tensors d).
Qed.

Lemma run_addTensor_right name left right up down opts d :
  addTensor name (Some RelPos.right) left right up down opts d =
  match last (tensors d) with
  | Some lastTensor =>
      addTensor name
        (Some (RelPos.at_
           (XY.mk (Tensor.x lastTensor + 1) (Tensor.y lastTensor))))
        left right up down opts d
  | None => (Throw TypeError, d)
  end.
Proof.
  pose proof (lastTensor_lookup d) as Hlast.
  destruct (last (tensors d)) as [lastT|]; unfold addTensor;
    rewrite !run_bind, run_lastTensor; cbv beta iota.
  - js_step (run_prop _ _ _ _ Hlast). js_step run_lastTensor.
    by js_step (run_prop _ _ _ _ Hlast).
  - unfold prop. rewrite !run_bind. cbn. by rewrite Hlast.
Qed.

Lemma run_addTensor_down name left right up down opts d :
  addTensor name (Some RelPos.down) left right up down opts d =
  match last (tensors d) with
  | Some lastTensor =>
      addTensor name
        (Some (RelPos.at_
           (XY.mk (Tensor.x lastTensor) (Tensor.y lastTensor + 1))))
        left right up down opts d
  | None => (Throw TypeError, d)
  end.
Proof.
  pose proof (lastTensor_lookup d) as Hlast.
  destruct (last (tensors d)) as [lastT|]; unfold addTensor;
    rewrite !run_bind, run_lastTensor; cbv beta iota.
  - js_step (run_prop _ _ _ _ Hlast). js_step run_lastTensor.
    by js_step (run_prop _ _ _ _ Hlast).
  - unfold prop. rewrite !run_bind. cbn. by rewrite Hlast.
Qed.
End Running.

(** ** Calls that the builder does not guard against *)

Section Unguarded.
Context {Line : Type}.
Implicit Types d : TensorDiagramCore Line.

Lemma run_addSummation_none name position d :
  relevantTensors name d = [] →
  addSummation name position d = (Throw (NoMatchingIndexError name), d).
Proof.
  intros Hrel. unfold addSummation. rewrite run_bind. cbn. by rewrite Hrel.
Qed.

Lemma run_addSummation_many name position d r0 r1 r2 rest :
  relevantTensors name d = r0 :: r1 :: r2 :: rest →
  addSummation name position d =
  (addTensor "dot" (RelPos.at_ <$> position) [] [] [] [] dotOpts;;
   dotTensor ← lastTensor;
   forEachFrom 0 (r0 :: r1 :: r2 :: rest) (mergeIntoDot name dotTensor)) d.
Proof.
  intros Hrel. unfold addSummation at 1. rewrite run_bind. cbn -[addTensor].
  by rewrite Hrel.
Qed.

Lemma relevantTensors_many name d :
  (3 ≤ length (filter (carries name) (tensors d)))%nat →
  ∃ r0 r1 r2 rest, relevantTensors name d = r0 :: r1 :: r2 :: rest.
Proof.
  rewrite <- length_relevantTensors.
  destruct (relevantTensors name d) as [|r0 [|r1 [|r2 rest]]]; simpl;
    try lia.
  intros _. by exists r0, r1, r2, rest.
Qed.

Lemma relevantTensors_absent name d :
  Forall (λ tensor, name ∉ indexNames tensor) (tensors d) →
  relevantTensors name d = [].
Proof.
  intros Hnone. unfold relevantTensors. apply refsFrom_nil.
  eapply Forall_impl; [exact Hnone|].
  intros tensor Hnot Hcarries. by apply Hnot, carries_indexNames.
Qed.

(** C7.  When no tensor carries an index named [name], [addSummation]
    throws the error of its first [throw] statement (the no-matching-index
    error), and the diagram reached is the diagram before the call:
    tensors, contractions and lines are untouched. *)
Theorem addSummation_no_matching_index name position d :
  Forall (λ tensor, name ∉ indexNames tensor) (tensors d) →
  addSummation name position d = (Throw (NoMatchingIndexError name), d).
Proof.
  intros Hnone. by apply run_addSummation_none, relevantTensors_absent.
Qed.


(** With three or more tensors carrying an index named [name] and no
    position supplied, [addSummation] passes [undefined] to [addTensor],
    where reading [pos.x] raises the run time's [TypeError]; nothing has
    been pushed by then, so the diagram is unchanged.  No [throw] statement
    of the code is involved, and no default position is computed. *)
Theorem addSummation_missing_position name d :
  (3 ≤ length (filter (carries name) (tensors d)))%nat →
  addSummation name None d = (Throw TypeError, d).
Proof.
  intros (r0 & r1 & r2 & rest & Hrel)%relevantTensors_many.
  rewrite (run_addSummation_many _ _ _ _ _ _ _ Hrel).
  rewrite run_bind. simpl fmap. by rewrite run_addTensor_undefined.
Qed.

End Unguarded.

(** ** Formula derivation *)

Section Formulas.
Context {Line : Type}.
Implicit Types d : TensorDiagramCore Line.

Lemma elem_of_allIndexNames d s :
  s ∈ allIndexNames d ↔
  ∃ tensor index, tensor ∈ tensors d ∧ index ∈ Tensor.indices tensor
                  ∧ Index.name index = s.
Proof.
  unfold allIndexNames, indexNames. rewrite list_elem_of_join. split.
  - intros (names & Hs & (tensor & -> & Htensor)%list_elem_of_fmap).
    apply list_elem_of_fmap in Hs as (index & -> & Hindex).
    by exists tensor, index.
  - intros (tensor & index & Htensor & Hindex & <-).
    exists (Index.name <$> Tensor.indices tensor).
    split; [by apply list_elem_of_fmap_2|].
    by apply (list_elem_of_fmap_2 (λ t, Index.name <$> Tensor.indices t)).
Qed.

Lemma elem_of_looseNames d s :
  s ∈ looseNames d ↔
  ∃ tensor index, tensor ∈ tensors d ∧ index ∈ Tensor.indices tensor
                  ∧ Index.name index = s ∧ s ∉ contractionNames d.
Proof.
  unfold looseNames, looseIndices, contractionNames.
  rewrite list_elem_of_join. split.
  - intros (names & Hs & (loose & -> & Hloose)%list_elem_of_fmap).
    apply list_elem_of_fmap in Hloose as (tensor & -> & Htensor).
    apply list_elem_of_fmap in Hs as (index & -> & Hindex).
    apply list_elem_of_filter in Hindex as [Hfree Hindex].
    by exists tensor, index.
  - intros (tensor & index & Htensor & Hindex & <- & Hfree).
    eexists. split; [|apply list_elem_of_fmap_2, list_elem_of_fmap_2, Htensor].
    apply list_elem_of_fmap_2. by apply list_elem_of_filter.
Qed.

(** C8, as the code has it.  [looseIndices] returns, tensor by tensor and
    in each tensor's index order, the indices whose name is in no
    contraction; no loose name is a contraction name; every index name of
    the diagram is a loose name or a contraction name and every loose name
    is an index name.  The union of the loose and the contraction names is
    the set of index names exactly when every contraction name is the name
    of an index of some tensor, which nothing in the code ensures. *)
Theorem looseIndices_spec d :
  (∀ r, looseIndices d !! r =
        (λ tensor, filter (λ index, Index.name index ∉ contractionNames d)
                          (Tensor.indices tensor)) <$> tensors d !! r)
  ∧ (∀ r tensor loose,
       tensors d !! r = Some tensor → looseIndices d !! r = Some loose →
       sublist loose (Tensor.indices tensor))
  ∧ (∀ s, s ∈ looseNames d → s ∉ contractionNames d)
  ∧ (∀ s, s ∈ allIndexNames d → s ∈ looseNames d ∨ s ∈ contractionNames d)
  ∧ (∀ s, s ∈ looseNames d → s ∈ allIndexNames d)
  ∧ ((∀ s, s ∈ looseNames d ∨ s ∈ contractionNames d ↔ s ∈ allIndexNames d)
     ↔ (∀ s, s ∈ contractionNames d → s ∈ allIndexNames d)).
Proof.
  assert (Hlookup : ∀ r, looseIndices d !! r =
    (λ tensor, filter (λ index, Index.name index ∉ contractionNames d)
                      (Tensor.indices tensor)) <$> tensors d !! r).
  { intros r. unfold looseIndices. by rewrite list_lookup_fmap. }
  assert (Hloose_all : ∀ s, s ∈ looseNames d → s ∈ allIndexNames d).
  { intros s (tensor & index & ? & ? & ? & _)%elem_of_looseNames.
    apply elem_of_allIndexNames. by exists tensor, index. }
  assert (Hall : ∀ s, s ∈ allIndexNames d →
                      s ∈ looseNames d ∨ s ∈ contractionNames d).
  { intros s (tensor & index & ? & ? & ?)%elem_of_allIndexNames.
    destruct (decide (s ∈ contractionNames d)); [by right|left].
    apply elem_of_looseNames. by exists tensor, index. }
  split; [exact Hlookup|]. split.
  { intros r tensor loose Htensor Hloose.
    rewrite Hlookup, Htensor in Hloose. simplify_eq/=.
    apply sublist_filter. }
  split.
  { by intros s (? & ? & _ & _ & _ & ?)%elem_of_looseNames. }
  split; [exact Hall|]. split; [exact Hloose_all|]. split.
  - intros Hunion s Hs. apply Hunion. by right.
  - intros Hsub s. split; [|apply Hall].
    intros [?|?]; [by apply Hloose_all|by apply Hsub].
Qed.

(** *** The free names of [toFormulaEinsum] *)

Lemma firstEncounters_snoc contracted all s :
  firstEncounters contracted (all ++ [s]) =
  firstEncounters contracted all
  ++ (if decide ((s ∉ contracted) ∧ (s ∉ all)) then [s] else []).
Proof.
  unfold firstEncounters. rewrite imap_app, omap_app. f_equal.
  - f_equal. apply imap_ext. intros i x Hx.
    rewrite take_app_le; [done|]. apply lookup_lt_Some in Hx. lia.
  - simpl. rewrite Nat.add_0_r, take_app_length.
    by destruct (decide _).
Qed.

Lemma elem_of_firstEncounters contracted all s :
  s ∈ firstEncounters contracted all ↔ s ∈ all ∧ s ∉ contracted.
Proof.
  induction all as [|x all IH] using rev_ind.
  - unfold firstEncounters. simpl. rewrite elem_of_nil. tauto.
  - rewrite firstEncounters_snoc, !elem_of_app, IH, list_elem_of_singleton.
    destruct (decide _) as [[Hx1 Hx2]|Hx].
    + rewrite list_elem_of_singleton. split; [|tauto].
      intros [?| ->]; tauto.
    + rewrite elem_of_nil. split; [tauto|].
      intros [[?| ->] ?]; [tauto|]. left. split; [|done].
      destruct (decide (x ∈ all)); tauto.
Qed.

Lemma firstEncounters_NoDup contracted all :
  NoDup (firstEncounters contracted all).
Proof.
  induction all as [|x all IH] using rev_ind; [constructor|].
  rewrite firstEncounters_snoc. apply NoDup_app. split; [done|].
  destruct (decide _) as [[Hx1 Hx2]|Hx].
  - split; [|apply NoDup_singleton].
    intros s [Hs _]%elem_of_firstEncounters ->%list_elem_of_singleton. done.
  - split; [|constructor]. intros s _. apply not_elem_of_nil.
Qed.

(** The loop of the code computes the free names of the specification. *)
Lemma collectFree_firstEncounters contracted all :
  collectFree contracted all = firstEncounters contracted all.
Proof.
  unfold collectFree. induction all as [|x all IH] using rev_ind; [done|].
  rewrite foldl_snoc, IH, firstEncounters_snoc.
  destruct (decide ((x ∉ contracted) ∧ (x ∉ all))) as [[Hx1 Hx2]|Hx].
  - rewrite decide_True; [done|]. split; [done|].
    rewrite elem_of_firstEncounters. tauto.
  - rewrite decide_False; [by rewrite app_nil_r|].
    rewrite elem_of_firstEncounters. intros [Hx1 Hx2]. apply Hx.
    split; [done|]. intros ?. apply Hx2. tauto.
Qed.

(** C2.  [toFormulaEinsum] returns [einsum('<names per tensor>-><free
    names>', <tensor names>)]: the names of each tensor's indices written
    one after the other, the tensors separated by a comma; the free names
    written one after the other; the tensor names separated by a comma and
    a space.  The free names are, in the order of first encounter in the
    flattened list of index names, the names of no contraction, each once.
    For the single tensor [A] with the left index ["i"] the result is
    [einsum('i->i', A)]; for [A] and [B] joined over ["j"] it is
    [einsum('j,j->', A, B)]; for the three tensors sharing ["k"], the last
    one with ["l"] too, it is [einsum('k,k,kl->kl', A, B, C)]. *)
Theorem toFormulaEinsum_spec d :
  let names tensor := Index.name <$> Tensor.indices tensor in
  let contracted := Contraction.name <$> contractions d in
  let all := mjoin (names <$> tensors d) in
  let free := firstEncounters contracted all in
  toFormulaEinsum d =
    "einsum('"
    +:+ String.concat ","
          ((λ tensor, String.concat "" (names tensor)) <$> tensors d)
    +:+ "->" +:+ String.concat "" free +:+ "', "
    +:+ String.concat ", " (Tensor.name <$> tensors d) +:+ ")"
  ∧ free = freeNames d
  ∧ NoDup free
  ∧ (∀ s, s ∈ free ↔
          (∃ tensor index,
             tensor ∈ tensors d ∧ index ∈ Tensor.indices tensor
             ∧ Index.name index = s)
          ∧ ∀ contraction,
              contraction ∈ contractions d → Contraction.name contraction ≠ s)
  ∧ (∀ s, s ∈ freeNames d ↔ s ∈ allIndexNames d ∧ s ∉ contractionNames d)
  ∧ (∀ k, free !! k =
          omap id
            (imap (λ i s,
                     if decide ((s ∉ contracted) ∧ (s ∉ take i all))
                     then Some s else None)
                  all) !! k)
  ∧ toFormulaEinsum (@diagramA Line) = "einsum('i->i', A)"
  ∧ toFormulaEinsum (@diagramPair Line) = "einsum('j,j->', A, B)"
  ∧ toFormulaEinsum (@diagramStar Line) = "einsum('k,k,kl->kl', A, B, C)".
Proof.
  intros names contracted all free.
  split.
  { unfold toFormulaEinsum, join. rewrite collectFree_firstEncounters.
    by rewrite <- list_fmap_compose. }
  split; [done|].
  split; [apply firstEncounters_NoDup|].
  split.
  { intros s. unfold free. rewrite elem_of_firstEncounters.
    change all with (allIndexNames d). rewrite elem_of_allIndexNames.
    unfold contracted. rewrite list_elem_of_fmap. split.
    - intros [Hall Hnot]. split; [exact Hall|].
      intros contraction Hin Hname. apply Hnot. by exists contraction.
    - intros [Hall Hnot]. split; [exact Hall|].
      intros (contraction & Hname & Hin). by apply (Hnot contraction). }
  split; [intros s; apply elem_of_firstEncounters|].
  split; [done|]. split; [reflexivity|]. split; reflexivity.
Qed.
End Formulas.

(** ** Summation over an index that one tensor carries *)

Section Single.
Context {Line : Type}.
Implicit Types d : TensorDiagramCore Line.

Lemma relevantTensors_single name d r tensor :
  tensors d !! r = Some tensor → carries name tensor →
  (∀ r' tensor',
     tensors d !! r' = Some tensor' → carries name tensor' → r' = r) →
  relevantTensors name d = [r].
Proof.
  intros Hr Hcarries Honly.
  pose proof (relevantTensors_NoDup name d) as Hnodup.
  assert (Hin : ∀ r', r' ∈ relevantTensors name d ↔ r' = r).
  { intros r'. rewrite elem_of_relevantTensors. split.
    - intros (tensor' & ? & ?). by eapply Honly.
    - intros ->. by exists tensor. }
  destruct (relevantTensors name d) as [|a [|b l]].
  - by destruct (not_elem_of_nil r); apply Hin.
  - f_equal. apply Hin. by left.
  - assert (a = r) as -> by (apply Hin; by left).
    assert (b = r) as -> by (apply Hin; right; by left).
    apply NoDup_cons in Hnodup as [Hnot _]. destruct Hnot. by left.
Qed.

Lemma carries_head name tensor :
  carries name tensor →
  ∃ index,
    head (filter (λ index, Index.name index = name) (Tensor.indices tensor))
      = Some index
    ∧ Index.name index = name.
Proof.
  unfold carries. rewrite Exists_exists. intros (index & Hin & Hname).
  assert (Hfiltered : index ∈ filter (λ index, Index.name index = name)
                                     (Tensor.indices tensor))
    by by apply list_elem_of_filter.
  destruct (filter _ (Tensor.indices tensor)) as [|first rest] eqn:Hfilter.
  - by apply elem_of_nil in Hfiltered.
  - exists first. split; [done|].
    assert (Hfirst : first ∈ filter (λ index, Index.name index = name)
                                    (Tensor.indices tensor))
      by (rewrite Hfilter; by left).
    by apply list_elem_of_filter in Hfirst as [? _].
Qed.

Lemma run_contract_with_last (r : ref) name ts d :
  (r < length (tensors d))%nat →
  (source ← indexOf r; n ← tensorsLength;
   addContraction source (n - 1) name Pos.up)
    (withTensors (tensors d ++ ts) d) =
  (Return tt,
   mkDiagram (tensors d ++ ts)
     (contractions d ++
      [Contraction.mk (Some r)
         (tensorAt (withTensors (tensors d ++ ts) d)
            (Z.of_nat (length (tensors d ++ ts)) - 1))
         name Pos.up])
     (lines d) (width d) (height d)).
Proof.
  intros Hr.
  assert (Hr' : (r < length (tensors (withTensors (tensors d ++ ts) d)))%nat).
  { simpl. rewrite length_app. lia. }
  js_step (run_indexOf _ _ Hr'). js_step run_tensorsLength.
  by rewrite run_addContraction, (tensorAt_in_range _ _ Hr').
Qed.

(** C3.  When exactly one tensor, the one at [r] and placed at [(x, y)],
    carries an index named [name], [addSummation(name)] looks at the first
    such index of that tensor, of order [order].  For a left index it
    returns having appended exactly one tensor, named and shaped ["dot"]
    with hidden label, at [(x - 1, y + order)] with one right-side index
    named [name]; for a right index the dot is at [(x + 1, y + order)] with
    a left-side index; for an up index at [(x + order, y - 1)] with a
    down-side index; for a down index at [(x + order, y + 1)] with an
    up-side index.  In each case exactly one contraction is recorded, from
    the tensor to the dot under [name].  For any other position value the
    call throws the invalid-position error and changes nothing. *)
Theorem addSummation_single name position d r tensor :
  tensors d !! r = Some tensor → carries name tensor →
  (∀ r' tensor',
     tensors d !! r' = Some tensor' → carries name tensor' → r' = r) →
  ∃ index,
    head (filter (λ index, Index.name index = name) (Tensor.indices tensor))
      = Some index
    ∧ let x := Tensor.x tensor in
      let y := Tensor.y tensor in
      let order := Index.order index in
      match Index.pos index with
      | Pos.left =>
          addSummation name position d =
          (Return tt, withDot d r name (x - 1) (y + order) Pos.right 1)
      | Pos.right =>
          addSummation name position d =
          (Return tt, withDot d r name (x + 1) (y + order) Pos.left 1)
      | Pos.up =>
          addSummation name position d =
          (Return tt, withDot d r name (x + order) (y - 1) Pos.down 0)
      | Pos.down =>
          addSummation name position d =
          (Return tt, withDot d r name (x + order) (y + 1) Pos.up 0)
      | Pos.outside raw =>
          addSummation name position d =
          (Throw (InvalidIndexPositionError (Pos.outside raw) name), d)
      end.
Proof.
  intros Hr Hcarries Honly.
  pose proof (relevantTensors_single _ _ _ _ Hr Hcarries Honly) as Hrel.
  destruct (carries_head _ _ Hcarries) as (index & Hhead & Hname).
  exists index. split; [done|].
  assert (Hlen : (r < length (tensors d))%nat) by by eapply lookup_lt_Some.
  assert (Hlast : ∀ t' : Tensor.t,
    tensorAt (withTensors (tensors d ++ [t']) d)
      (Z.of_nat (length (tensors d ++ [t'])) - 1) = Some (length (tensors d))).
  { intros t'. unfold tensorAt. simpl. rewrite length_app. simpl.
    rewrite decide_True by lia. f_equal. lia. }
  unfold addSummation. rewrite run_bind. cbn [get]. cbv beta iota.
  rewrite Hrel.
  js_step (run_prop (Some r) _ _ tensor Hr).
  rewrite Hhead, run_bind.
  destruct (Index.pos index) eqn:Hpos; cbv zeta;
    try (do 2 js_step (run_prop (Some r) _ _ tensor Hr);
         rewrite run_addTensor_at; cbv beta iota;
         rewrite (run_contract_with_last _ _ _ _ Hlen), Hlast; reflexivity).
  reflexivity.
Qed.
End Single.

(** ** Disambiguated names *)

Lemma append_eq_self (s t : string) : s +:+ t = s → t = "".
Proof. induction s as [|a s IH]; simpl; [done|]. intros [=]. auto. Qed.

Lemma pretty_N_go_nonempty (x : N) (s : string) :
  s ≠ "" → pretty_N_go x s ≠ "".
Proof.
  revert s. induction (N.lt_wf_0 x) as [x _ IH]; intros s Hs.
  destruct (decide (x = 0%N)) as [->|Hx].
  - by rewrite pretty_N_go_0.
  - rewrite pretty_N_go_step by lia. apply IH; [|done].
    apply N.div_lt; lia.
Qed.

Lemma pretty_nat_nonempty (k : nat) : pretty k ≠ "".
Proof.
  unfold pretty, pretty_nat, pretty, pretty_N.
  destruct (decide (N.of_nat k = 0%N)); [done|].
  rewrite pretty_N_go_step by lia. by apply pretty_N_go_nonempty.
Qed.

(** [name + k] is never [name]. *)
Lemma disambiguated_ne (name : string) (k : nat) : name +:+ pretty k ≠ name.
Proof. intros Heq%append_eq_self. by apply (pretty_nat_nonempty k). Qed.

(** ** Renaming the first index named [old] *)

Section Rename.
Implicit Types l : list Index.t.

Lemma carries_list_find name tensor :
  carries name tensor →
  ∃ j index,
    list_find (λ ind, Index.name ind = name) (Tensor.indices tensor)
      = Some (j, index).
Proof.
  unfold carries. rewrite Exists_exists. intros (index & Hin & Hname).
  destruct (list_find_elem_of (λ ind, Index.name ind = name) _ _ Hin Hname)
    as [[j index'] Hfind].
  by exists j, index'.
Qed.

Lemma alter_first_unique old new l j index :
  list_find (λ ind, Index.name ind = old) l = Some (j, index) →
  length (filter (λ ind, Index.name ind = old) l) = 1%nat →
  alter (Index.setName new) j l =
  (λ ind, if decide (Index.name ind = old) then Index.setName new ind else ind)
    <$> l.
Proof.
  revert j. induction l as [|x l IH]; intros j; [done|].
  rewrite filter_cons. csimpl. destruct (decide (Index.name x = old)) as [Hx|Hx].
  - intros [= <- <-]. simpl. intros [= Hlen]. f_equal.
    apply length_zero_iff_nil in Hlen.
    assert (Hnone : Forall (λ ind, Index.name ind ≠ old) l).
    { apply Forall_forall. intros ind Hind Hname.
      assert (ind ∈ filter (λ ind, Index.name ind = old) l)
        by by apply list_elem_of_filter.
      rewrite Hlen in *. by eapply not_elem_of_nil. }
    clear -Hnone. induction Hnone as [|y l Hy _ IH']; [done|]. csimpl.
    rewrite decide_False by done. by f_equal.
  - intros ([j' index'] & Hfind & Heq)%fmap_Some Hlen.
    simpl in Heq. injection Heq as -> ->. simpl. f_equal. by apply IH.
Qed.

Lemma indexNames_renamed old new tensor :
  new ≠ old → old ∉ indexNames (renamed old new tensor).
Proof.
  intros Hne. unfold indexNames, renamed. simpl.
  intros (index' & Hname & (index & -> & Hin)%list_elem_of_fmap)%list_elem_of_fmap.
  destruct (decide (Index.name index = old)); simpl in Hname; congruence.
Qed.
End Rename.

(** ** Summation over an index that three or more tensors carry *)

Section Many.
Context {Line : Type}.
Implicit Types d s : TensorDiagramCore Line.

(** One round of the loop: the dot tensor [n] gets a new index and the
    first index named [name] of the tensor [r] is renamed. *)
Lemma run_mergeIntoDot name (n r : ref) (i : nat) s tensor dot j index :
  tensors s !! r = Some tensor →
  list_find (λ ind, Index.name ind = name) (Tensor.indices tensor)
    = Some (j, index) →
  tensors s !! n = Some dot → (r < n)%nat → length (tensors s) = S n →
  mergeIntoDot name (Some n) r i s =
  (Return tt,
   mkDiagram
     (alter (λ t, Tensor.setIndices
               (alter (Index.setName (name +:+ pretty i)) j (Tensor.indices t)) t)
        r
        (alter (λ t, Tensor.setIndices
                  (Tensor.indices t ++
                   [Index.mk (name +:+ pretty i) (opposite (Index.pos index))
                      (Z.of_nat (length (filter
                         (λ ind, Index.pos ind = opposite (Index.pos index))
                         (Tensor.indices dot))))
                      false]) t)
           n (tensors s)))
     (contractions s ++
      [Contraction.mk (Some r) (Some n) (name +:+ pretty i) Pos.up])
     (lines s) (width s) (height s)).
Proof.
  intros Hr Hfind Hn Hlt Hlen. unfold mergeIntoDot.
  js_step (run_prop (Some r) _ _ tensor Hr).
  rewrite Hfind; cbv beta iota zeta.
  js_step (run_prop (Some n) _ _ dot Hn).
  do 2 js_step run_mutate.
  js_step run_indexOf; [|simpl; rewrite !length_alter; lia].
  js_step run_tensorsLength.
  rewrite run_addContraction. unfold tensorAt. simpl.
  rewrite !length_alter, Hlen.
  rewrite !decide_True by lia. rewrite Nat2Z.id.
  replace (Z.to_nat (Z.of_nat (S n) - 1)) with n by lia. done.
Qed.

Lemma lookup_alter_alter_ne (f g : Tensor.t → Tensor.t) (r n r' : ref)
    (ts : list Tensor.t) :
  r' ≠ r → r' ≠ n → alter f r (alter g n ts) !! r' = ts !! r'.
Proof. intros. by rewrite !list_lookup_alter_ne. Qed.

(** The whole loop, from the counter [i], over the references [l]. *)
Lemma run_forEach_mergeIntoDot name (n : ref) (l : list ref) :
  ∀ (i : nat) s dot,
    tensors s !! n = Some dot → length (tensors s) = S n → NoDup l →
    (∀ r, r ∈ l →
       (r < n)%nat ∧ ∃ t, tensors s !! r = Some t ∧ carries name t) →
    ∃ ts' added,
      forEachFrom i l (mergeIntoDot name (Some n)) s =
        (Return tt,
         mkDiagram ts'
           (contractions s ++
            imap (λ k r, Contraction.mk (Some r) (Some n)
                           (name +:+ pretty (i + k)%nat) Pos.up) l)
           (lines s) (width s) (height s))
      ∧ length ts' = S n
      ∧ (∀ r, r ∉ l → r ≠ n → ts' !! r = tensors s !! r)
      ∧ (∀ k r t,
           l !! k = Some r → tensors s !! r = Some t →
           ∃ j index,
             list_find (λ ind, Index.name ind = name) (Tensor.indices t)
               = Some (j, index)
             ∧ ts' !! r =
                 Some (Tensor.setIndices
                         (alter (Index.setName (name +:+ pretty (i + k)%nat))
                                j (Tensor.indices t)) t)
             ∧ added !! k =
                 Some (Index.mk (name +:+ pretty (i + k)%nat)
                         (opposite (Index.pos index))
                         (Z.of_nat (length (filter
                            (λ ind, Index.pos ind = opposite (Index.pos index))
                            (Tensor.indices dot ++ take k added))))
                         false))
      ∧ ts' !! n = Some (Tensor.setIndices (Tensor.indices dot ++ added) dot)
      ∧ length added = length l.
Proof.
  induction l as [|r l IH]; intros i s dot Hn Hlen Hnodup Hvalid.
  - exists (tensors s), []. simpl. rewrite !app_nil_r.
    split; [by destruct s|]. split; [done|]. split; [done|].
    split; [intros k r t Hk; by rewrite lookup_nil in Hk|].
    split; [|done]. rewrite Hn. by destruct dot.
  - apply NoDup_cons in Hnodup as [Hfresh Hnodup].
    destruct (Hvalid r) as (Hlt & tensor & Hr & Hcarries); [by left|].
    destruct (carries_list_find _ _ Hcarries) as (j & index & Hfind).
    simpl forEachFrom.
    rewrite run_bind,
      (run_mergeIntoDot _ _ _ _ _ _ _ _ _ Hr Hfind Hn Hlt Hlen);
      cbv beta iota.
    set (dotIndex := Index.mk (name +:+ pretty i) (opposite (Index.pos index))
           (Z.of_nat (length (filter
              (λ ind, Index.pos ind = opposite (Index.pos index))
              (Tensor.indices dot)))) false).
    set (ts1 := alter _ r (alter _ n (tensors s))).
    set (s1 := mkDiagram ts1 _ _ _ _).
    assert (Hother : ∀ r', r' ≠ r → r' ≠ n → ts1 !! r' = tensors s !! r').
    { intros r' ??. by apply lookup_alter_alter_ne. }
    assert (Hn1 : tensors s1 !! n =
              Some (Tensor.setIndices (Tensor.indices dot ++ [dotIndex]) dot)).
    { simpl. unfold ts1. rewrite list_lookup_alter_ne by lia.
      by rewrite list_lookup_alter_eq, Hn. }
    assert (Hr1 : ts1 !! r =
              Some (Tensor.setIndices
                      (alter (Index.setName (name +:+ pretty i)) j
                             (Tensor.indices tensor)) tensor)).
    { unfold ts1. rewrite list_lookup_alter_eq.
      rewrite list_lookup_alter_ne by lia. by rewrite Hr. }
    destruct (IH (S i) s1 _ Hn1) as (ts' & added & Hrun & Hlen' & Hkeep
                                     & Hrenamed & Hdot & Hadded).
    { simpl. unfold ts1. by rewrite !length_alter. }
    { done. }
    { intros r' Hr'. destruct (Hvalid r') as (Hlt' & t' & Ht' & Hc');
        [by right|].
      split; [done|]. exists t'. split; [|done]. simpl.
      rewrite Hother; [done| |lia]. intros ->. done. }
    exists ts', (dotIndex :: added).
    split.
    { rewrite Hrun. simpl. rewrite <- app_assoc. simpl.
      rewrite Nat.add_0_r. do 3 f_equal. f_equal.
      apply imap_ext. intros k r' _. simpl. by rewrite Nat.add_succ_r. }
    split; [done|]. split.
    { intros r' Hr' Hr'n. apply not_elem_of_cons in Hr' as [? ?].
      rewrite Hkeep by done. by apply Hother. }
    split.
    { intros [|k] r' t Hk Ht; simpl in Hk.
      - injection Hk as <-. rewrite Hr in Ht. injection Ht as <-.
        exists j, index. split; [done|]. rewrite Nat.add_0_r.
        split.
        + rewrite Hkeep by (done || lia). done.
        + simpl. by rewrite app_nil_r.
      - assert (Hin : r' ∈ l) by by eapply list_elem_of_lookup_2.
        destruct (Hvalid r') as (Hlt' & _); [by right|].
        assert (Ht1 : tensors s1 !! r' = Some t).
        { simpl. rewrite Hother; [done| |lia]. intros ->. done. }
        destruct (Hrenamed k r' t Hk Ht1) as (j' & index' & Hfind' & Hts' & Hk').
        exists j', index'. rewrite Nat.add_succ_r. split; [done|].
        split; [done|]. simpl. rewrite Hk'. simpl.
        by rewrite <- app_assoc. }
    split.
    { rewrite Hdot. simpl. by rewrite <- app_assoc. }
    simpl. by rewrite Hadded.
Qed.
Lemma relevantTensors_valid name d r :
  r ∈ relevantTensors name d → (r < length (tensors d))%nat.
Proof.
  intros (t & Ht & _)%elem_of_relevantTensors. by eapply lookup_lt_Some.
Qed.

(** The last branch of [addSummation], run to its end: the tensors [ts']
    and the indices [added] to the dot that the call leaves. *)
Lemma run_addSummation_star name p d :
  let relevant := relevantTensors name d in
  let n := length (tensors d) in
  (3 ≤ length relevant)%nat →
  ∃ ts' added,
    addSummation name (Some p) d =
      (Return tt,
       mkDiagram ts'
         (contractions d ++
          imap (λ k r, Contraction.mk (Some r) (Some n)
                         (name +:+ pretty k) Pos.up) relevant)
         (lines d) (width d) (height d))
    ∧ length ts' = S n
    ∧ (∀ r, r ∉ relevant → r ≠ n → ts' !! r = tensors d !! r)
    ∧ (∀ k r t,
         relevant !! k = Some r → tensors d !! r = Some t →
         ∃ j index,
           list_find (λ ind, Index.name ind = name) (Tensor.indices t)
             = Some (j, index)
           ∧ ts' !! r =
               Some (Tensor.setIndices
                       (alter (Index.setName (name +:+ pretty k))
                              j (Tensor.indices t)) t)
           ∧ added !! k =
               Some (Index.mk (name +:+ pretty k)
                       (opposite (Index.pos index))
                       (Z.of_nat (length (filter
                          (λ ind, Index.pos ind = opposite (Index.pos index))
                          (take k added))))
                       false))
    ∧ ts' !! n =
        Some (Tensor.mk (XY.x p) (XY.y p) "dot" "dot" false "up" 20 added 0)
    ∧ length added = length relevant.
Proof.
  intros relevant n Hmany. subst relevant.
  destruct (relevantTensors name d) as [|r0 [|r1 [|r2 rest]]] eqn:Hrel;
    simpl in Hmany; try lia.
  rewrite (run_addSummation_many _ _ _ _ _ _ _ Hrel), <- Hrel.
  rewrite run_bind. simpl fmap. rewrite run_addTensor_at. cbv beta iota.
  set (dot := createTensor _ _ _ _ _ _ _ _).
  set (s0 := withTensors (tensors d ++ [dot]) d).
  rewrite run_bind, run_lastTensor. cbv beta iota.
  assert (Hlast : tensorAt s0 (Z.of_nat (length (tensors s0)) - 1) = Some n).
  { unfold tensorAt. simpl. rewrite length_app. simpl.
    rewrite decide_True by lia. f_equal. lia. }
  rewrite Hlast.
  assert (Hn0 : tensors s0 !! n = Some dot).
  { simpl. by rewrite lookup_app_r, Nat.sub_diag. }
  assert (Hsame : ∀ r, (r < n)%nat → tensors s0 !! r = tensors d !! r).
  { intros r Hr. simpl. by apply lookup_app_l. }
  destruct (run_forEach_mergeIntoDot name n (relevantTensors name d)
              0%nat s0 dot Hn0)
    as (ts' & added & Hrun & Hlen' & Hkeep & Hrenamed & Hdot & Hadded).
  { simpl. rewrite length_app. simpl. lia. }
  { apply relevantTensors_NoDup. }
  { intros r Hr. pose proof (relevantTensors_valid _ _ _ Hr) as Hlt.
    split; [done|]. rewrite Hsame by done.
    by apply elem_of_relevantTensors. }
  exists ts', added. split; [by rewrite Hrun|]. split; [done|]. split.
  { intros r Hr Hrn. rewrite Hkeep by done.
    destruct (decide (r < n)%nat); [by apply Hsame|].
    simpl. rewrite !lookup_ge_None_2; [done|lia|].
    rewrite length_app. simpl. lia. }
  split; [|done].
  intros k r t Hk Ht.
  assert (Hlt : (r < n)%nat).
  { eapply relevantTensors_valid, list_elem_of_lookup_2, Hk. }
  rewrite <- Hsame in Ht by done.
  destruct (Hrenamed k r t Hk Ht) as (j & index & ? & ? & ?).
  by exists j, index.
Qed.
End Many.

Section Order.
Context {A : Type} (P : A → Prop) `{∀ a, Decision (P a)}.

Lemma refsFrom_increasing l : ∀ i k1 k2 (r1 r2 : ref),
  refsFrom P i l !! k1 = Some r1 → refsFrom P i l !! k2 = Some r2 →
  (k1 < k2)%nat → (r1 < r2)%nat.
Proof.
  induction l as [|a l IH]; intros i k1 k2 r1 r2; simpl; [done|].
  destruct (decide (P a)); [|by apply IH].
  destruct k1 as [|k1], k2 as [|k2]; simpl; try lia.
  - intros [= <-] Hr2%list_elem_of_lookup_2 _.
    apply elem_of_refsFrom in Hr2. lia.
  - intros ???. apply (IH (S i) k1 k2); [done..|lia].
Qed.
End Order.

Section Star.
Context {Line : Type}.
Implicit Types d : TensorDiagramCore Line.

Lemma unique_occurrence name (l : list Index.t) j index index' :
  list_find (λ ind, Index.name ind = name) l = Some (j, index) →
  length (filter (λ ind, Index.name ind = name) l) = 1%nat →
  index' ∈ l → Index.name index' = name → index' = index.
Proof.
  intros (Hj & Hname & _)%list_find_Some Hone Hin' Hname'.
  assert (Hf : index ∈ filter (λ ind, Index.name ind = name) l).
  { apply list_elem_of_filter. split; [done|].
    by eapply list_elem_of_lookup_2. }
  assert (Hf' : index' ∈ filter (λ ind, Index.name ind = name) l)
    by by apply list_elem_of_filter.
  destruct (filter _ l) as [|x [|y rest]]; simpl in Hone; try lia.
  apply list_elem_of_singleton in Hf, Hf'. congruence.
Qed.

(** C1.  When three or more tensors carry an index named [name], each of
    them exactly one, [addSummation(name, position)] with a position
    returns.  It appends exactly one tensor, the dot, at [position], and
    appends one contraction per relevant tensor, [n] in total.  For the
    [k]-th relevant tensor in diagram order: the tensor stays in place and
    its index named [name] is renamed to [name + k], nothing else of it
    changing; when that index sits on one of the four sides, the [k]-th
    index of the dot is named [name + k], sits on the opposite side (right
    for left, left for right, down for up, up for down), has for order the
    number of dot indices already on its side, and hides its label; the
    [k]-th new contraction links that tensor to the dot under [name + k].
    The other tensors are untouched. *)
Theorem addSummation_star name p d :
  let relevant := relevantTensors name d in
  let n := length (tensors d) in
  (3 ≤ length (filter (carries name) (tensors d)))%nat →
  Forall (λ tensor, carries name tensor → occurrences name tensor = 1%nat)
         (tensors d) →
  ∃ ts' dotIndices,
    addSummation name (Some p) d =
      (Return tt,
       mkDiagram ts'
         (contractions d ++
          imap (λ k r, Contraction.mk (Some r) (Some n)
                         (name +:+ pretty k) Pos.up) relevant)
         (lines d) (width d) (height d))
    ∧ length relevant = length (filter (carries name) (tensors d))
    ∧ (∀ r, r ∈ relevant ↔
            ∃ tensor, tensors d !! r = Some tensor ∧ carries name tensor)
    ∧ (∀ k1 k2 r1 r2,
         relevant !! k1 = Some r1 → relevant !! k2 = Some r2 →
         (k1 < k2)%nat → (r1 < r2)%nat)
    ∧ length ts' = S n
    ∧ ts' !! n =
        Some (Tensor.mk (XY.x p) (XY.y p) "dot" "dot" false "up" 20
                dotIndices 0)
    ∧ length dotIndices = length relevant
    ∧ (∀ r, (r < n)%nat → r ∉ relevant → ts' !! r = tensors d !! r)
    ∧ (∀ k r tensor,
         relevant !! k = Some r → tensors d !! r = Some tensor →
         ts' !! r =
           Some (Tensor.mk (Tensor.x tensor) (Tensor.y tensor)
                   (Tensor.name tensor) (Tensor.shape tensor)
                   (Tensor.showLabel tensor) (Tensor.labPos tensor)
                   (Tensor.size tensor)
                   ((λ index,
                       Index.mk
                         (if decide (Index.name index = name)
                          then name +:+ pretty k else Index.name index)
                         (Index.pos index) (Index.order index)
                         (Index.showLabel index))
                      <$> Tensor.indices tensor)
                   (Tensor.rectHeight tensor))
         ∧ ∀ index,
             index ∈ Tensor.indices tensor → Index.name index = name →
             (∀ raw, Index.pos index ≠ Pos.outside raw) →
             ∃ dotIndex,
               dotIndices !! k = Some dotIndex
               ∧ Index.name dotIndex = name +:+ pretty k
               ∧ Index.showLabel dotIndex = false
               ∧ Index.pos dotIndex =
                   match Index.pos index with
                   | Pos.left => Pos.right
                   | Pos.right => Pos.left
                   | Pos.up => Pos.down
                   | Pos.down => Pos.up
                   | Pos.outside raw => Pos.outside raw
                   end
               ∧ Index.order dotIndex =
                   Z.of_nat (length (filter
                     (λ ind, Index.pos ind = Index.pos dotIndex)
                     (take k dotIndices)))).
Proof.
  intros relevant n Hmany Hunique. subst relevant.
  rewrite <- length_relevantTensors in Hmany.
  destruct (run_addSummation_star name p d Hmany)
    as (ts' & added & Hrun & Hlen & Hkeep & Hrenamed & Hdot & Hadded).
  exists ts', added. split; [exact Hrun|].
  split; [apply length_relevantTensors|].
  split; [apply elem_of_relevantTensors|].
  split; [apply refsFrom_increasing|].
  split; [exact Hlen|]. split; [exact Hdot|]. split; [exact Hadded|].
  split.
  { intros r Hr Hnot. apply Hkeep; [done|]. fold n. lia. }
  intros k r tensor Hk Ht.
  destruct (Hrenamed k r tensor Hk Ht) as (j & index & Hfind & Hts' & Hk').
  assert (Hone : occurrences name tensor = 1%nat).
  { rewrite Forall_forall in Hunique.
    apply Hunique; [by eapply list_elem_of_lookup_2|].
    apply list_elem_of_lookup_2 in Hk.
    apply elem_of_relevantTensors in Hk as (t' & Ht' & Hc).
    congruence. }
  split.
  - rewrite Hts', (alter_first_unique _ _ _ _ _ Hfind Hone).
    unfold Tensor.setIndices. do 2 f_equal.
    apply list_fmap_ext. intros _ ind _.
    destruct (decide (Index.name ind = name)); [done|by destruct ind].
  - intros index' Hin' Hname' Hside.
    rewrite (unique_occurrence _ _ _ _ _ Hfind Hone Hin' Hname') in Hside |- *.
    eexists. split; [exact Hk'|]. simpl.
    split; [done|]. split; [done|].
    destruct (Index.pos index) as [| | | |raw]; simpl; try done.
    by destruct (Hside raw).
Qed.

(** C10.  When three or more tensors carry an index named [name], each of
    them exactly one, [addSummation(name, position)] returns and afterwards
    no tensor of the diagram, the new dot included, carries an index named
    [name]; hence an [addSummation(name)] that follows at once throws the
    no-matching-index error. *)
Theorem addSummation_star_consumes_name name p d :
  (3 ≤ length (filter (carries name) (tensors d)))%nat →
  Forall (λ tensor, carries name tensor → occurrences name tensor = 1%nat)
         (tensors d) →
  ∃ d',
    addSummation name (Some p) d = (Return tt, d')
    ∧ length (tensors d') = S (length (tensors d))
    ∧ Forall (λ tensor, name ∉ indexNames tensor) (tensors d')
    ∧ ∀ position,
        addSummation name position d' =
        (Throw (NoMatchingIndexError name), d').
Proof.
  intros Hmany Hunique.
  rewrite <- length_relevantTensors in Hmany.
  destruct (run_addSummation_star name p d Hmany)
    as (ts' & added & Hrun & Hlen & Hkeep & Hrenamed & Hdot & Hadded).
  eexists. split; [exact Hrun|]. simpl. split; [exact Hlen|].
  assert (Hgone : Forall (λ tensor, name ∉ indexNames tensor) ts').
  { apply Forall_lookup. intros r t' Hr.
    assert (Hr_lt : (r < S (length (tensors d)))%nat).
    { rewrite <- Hlen. by eapply lookup_lt_Some. }
    destruct (decide (r = length (tensors d))) as [->|Hrn].
    - rewrite Hdot in Hr. injection Hr as <-. unfold indexNames. simpl.
      intros (index & Hname & Hin)%list_elem_of_fmap.
      apply list_elem_of_lookup_1 in Hin as [k Hk].
      assert (Hk_lt : (k < length (relevantTensors name d))%nat).
      { rewrite <- Hadded. by eapply lookup_lt_Some. }
      apply lookup_lt_is_Some_2 in Hk_lt as [r' Hr'].
      assert (Hin' : r' ∈ relevantTensors name d)
        by by eapply list_elem_of_lookup_2.
      apply elem_of_relevantTensors in Hin' as (t & Ht & _).
      destruct (Hrenamed k r' t Hr' Ht) as (j & index' & _ & _ & Hk').
      rewrite Hk in Hk'. injection Hk' as ->. simpl in Hname.
      by apply (disambiguated_ne name k).
    - destruct (decide (r ∈ relevantTensors name d)) as [Hin|Hnot].
      + pose proof Hin as (t & Ht & Hc)%elem_of_relevantTensors.
        apply list_elem_of_lookup_1 in Hin as [k Hk].
        destruct (Hrenamed k r t Hk Ht) as (j & index & Hfind & Hts' & _).
        assert (Hone : occurrences name t = 1%nat).
        { rewrite Forall_forall in Hunique.
          apply Hunique; [by eapply list_elem_of_lookup_2|done]. }
        rewrite Hts' in Hr. injection Hr as <-.
        rewrite (alter_first_unique _ _ _ _ _ Hfind Hone).
        apply (indexNames_renamed name (name +:+ pretty k) t).
        apply disambiguated_ne.
      + rewrite Hkeep in Hr by done.
        intros Hc%carries_indexNames. apply Hnot.
        apply elem_of_relevantTensors. by exists t'. }
  split; [exact Hgone|].
  intros position. by apply run_addSummation_none, relevantTensors_absent.
Qed.
End Star.

(** ** [rectHeight] is computed once *)

Create HintDb framed.

Section RectHeight.
Context {Line : Type}.
Implicit Types d : TensorDiagramCore Line.

Lemma keeps_refl d : keepsRectHeights d d.
Proof. intros r tensor Hr. by exists tensor. Qed.

Lemma keeps_trans d1 d2 d3 :
  keepsRectHeights d1 d2 → keepsRectHeights d2 d3 → keepsRectHeights d1 d3.
Proof.
  intros H12 H23 r t1 Hr1.
  destruct (H12 r t1 Hr1) as (t2 & Hr2 & Heq2).
  destruct (H23 r t2 Hr2) as (t3 & Hr3 & Heq3).
  exists t3. split; [done|congruence].
Qed.

Lemma framed_bind {A B} (m : M Line A) (k : A → M Line B) :
  framed m → (∀ a, framed (k a)) → framed (m ≫= k).
Proof.
  intros Hm Hk d. rewrite run_bind. specialize (Hm d).
  destruct (m d) as [[a|e] d']; simpl in *; [|done].
  eapply keeps_trans; [exact Hm|apply Hk].
Qed.

Lemma framed_pure {A} (m : M Line A) : (∀ d, snd (m d) = d) → framed m.
Proof. intros Hm d. rewrite Hm. apply keeps_refl. Qed.

Lemma framed_ret {A} (a : A) : framed (mret a : M Line A).
Proof. by apply framed_pure. Qed.

Lemma framed_throw {A} e : framed (throw e : M Line A).
Proof. by apply framed_pure. Qed.

Lemma framed_prop {A} o (f : Tensor.t → A) : framed (prop o f : M Line A).
Proof.
  apply framed_pure. intros d. unfold prop. rewrite run_bind. cbn.
  by destruct (o ≫= _).
Qed.

Lemma framed_lastTensor : framed (lastTensor : M Line _).
Proof. by apply framed_pure. Qed.

Lemma framed_tensorsLength : framed (tensorsLength : M Line _).
Proof. by apply framed_pure. Qed.

Lemma framed_indexOf r : framed (indexOf r : M Line _).
Proof. by apply framed_pure. Qed.

Lemma framed_push tensor :
  framed (d ← get; setTensors (tensors d ++ [tensor]) : M Line unit).
Proof.
  intros d r t Hr. exists t. split; [|done]. simpl.
  by apply lookup_app_l_Some.
Qed.

Lemma framed_mutate o (f : Tensor.t → Tensor.t) :
  (∀ t, Tensor.rectHeight (f t) = Tensor.rectHeight t) →
  framed (mutate o f : M Line unit).
Proof.
  intros Hf d r t Hr. destruct o as [r'|]; simpl; [|by exists t].
  destruct (decide (r' = r)) as [->|Hne].
  - exists (f t). by rewrite list_lookup_alter_eq, Hr.
  - exists t. by rewrite list_lookup_alter_ne.
Qed.

Lemma framed_addContraction i j name pos :
  framed (addContraction i j name pos : M Line unit).
Proof. intros d r t Hr. by exists t. Qed.

Lemma framed_setSize w h : framed (setSize w h : M Line unit).
Proof. intros d r t Hr. by exists t. Qed.

(** Replacing the indices of a tensor leaves its [rectHeight] alone. *)
Lemma framed_setIndices o (g : Tensor.t → list Index.t) :
  framed (mutate o (λ t, Tensor.setIndices (g t) t) : M Line unit).
Proof. by apply framed_mutate. Qed.

#[local] Hint Resolve framed_ret framed_throw framed_prop framed_lastTensor
  framed_tensorsLength framed_indexOf framed_push framed_setIndices
  framed_addContraction framed_setSize : framed.

(** A sequence of statements is framed when each statement is. *)
Ltac framed_sequence :=
  repeat first [ solve [auto with framed] | apply framed_bind; [|intros ?] ].

Lemma framed_addTensor name position left right up down opts :
  framed (addTensor name position left right up down opts : M Line unit).
Proof.
  unfold addTensor. apply framed_bind.
  - destruct position as [[| | |xy]|]; framed_sequence.
  - intros [pos|]; auto with framed.
Qed.

Lemma framed_mergeIntoDot name dotTensor tensor i :
  framed (mergeIntoDot name dotTensor tensor i : M Line unit).
Proof.
  unfold mergeIntoDot. apply framed_bind; [apply framed_prop|].
  intros tensorIndices. destruct (list_find _ _) as [[k index]|];
    [|apply framed_throw].
  framed_sequence.
Qed.

Lemma framed_forEachFrom {A} (f : A → nat → M Line unit) l :
  (∀ a i, framed (f a i)) → ∀ i, framed (forEachFrom i l f).
Proof.
  intros Hf. induction l as [|a l IH]; intros i; simpl.
  - apply framed_ret.
  - apply framed_bind; [apply Hf|]. intros _. apply IH.
Qed.

Lemma framed_addSummation name position :
  framed (addSummation name position : M Line unit).
Proof.
  pose proof framed_addTensor as HaddTensor.
  unfold addSummation. apply framed_bind; [by apply framed_pure|].
  intros d. destruct (relevantTensors name d) as [|r0 [|r1 [|r2 rest]]];
    [framed_sequence| |framed_sequence|].
  - apply framed_bind; [apply framed_prop|]. intros oneIndices.
    destruct (head _) as [indOne|]; [|apply framed_throw].
    apply framed_bind; [|intros _; framed_sequence].
    destruct (Index.pos indOne); framed_sequence.
  - apply framed_bind; [apply framed_addTensor|]. intros _.
    apply framed_bind; [apply framed_lastTensor|]. intros dotTensor.
    apply framed_forEachFrom. intros. apply framed_mergeIntoDot.
Qed.

Lemma sideIndices_pos (pos : Pos.t) (names : list string) :
  Forall (λ index, Index.pos index = pos) (sideIndices pos names).
Proof.
  apply Forall_lookup. intros i index. unfold sideIndices.
  rewrite list_lookup_imap. by intros (s & _ & ->)%fmap_Some.
Qed.

Lemma count_sideIndices (side pos : Pos.t) (names : list string) :
  length (filter (λ index, Index.pos index = side) (sideIndices pos names)) =
  if decide (pos = side) then length names else 0%nat.
Proof.
  pose proof (sideIndices_pos pos names) as Hpos.
  assert (Hlen : length (sideIndices pos names) = length names)
    by apply length_imap.
  revert Hpos Hlen. generalize (sideIndices pos names). intros l Hpos.
  revert names. induction Hpos as [|index l Hindex _ IH]; intros names Hlen.
  - destruct names; [|done]. by destruct (decide _).
  - destruct names as [|s names]; [done|]. injection Hlen as Hlen.
    specialize (IH names Hlen). rewrite filter_cons, Hindex.
    destruct (decide (pos = side)); simpl; by rewrite IH.
Qed.

(** C9.  [createTensor] sets [rectHeight] to the larger of the numbers of
    right-side and of left-side indices it is given, so a tensor that
    [addTensor] appends has the larger of the lengths of [right] and
    [left].  No method changes
    the [rectHeight] of a tensor afterwards, whether it returns or throws.
    In particular the dot that the last branch of [addSummation] creates
    with no indices keeps [rectHeight = 0] after its indices are pushed;
    on the three-tensor example it then has one right-side and one
    left-side index. *)
Theorem rectHeight_fixed_at_creation :
  (∀ x y name indices shape showLabel labPos size,
     Tensor.rectHeight
       (createTensor x y name indices shape showLabel labPos size) =
     Z.max
       (Z.of_nat (length (filter (λ index, Index.pos index = Pos.right) indices)))
       (Z.of_nat (length (filter (λ index, Index.pos index = Pos.left) indices))))
  ∧ (∀ name xy left right up down opts d,
       ∃ tensor,
         addTensor name (Some (RelPos.at_ xy)) left right up down opts d =
           (Return tt, withTensors (tensors d ++ [tensor]) d)
         ∧ Tensor.rectHeight tensor =
             Z.max (Z.of_nat (length right)) (Z.of_nat (length left)))
  ∧ (∀ name position left right up down opts,
       framed (addTensor name position left right up down opts : M Line unit))
  ∧ (∀ i j name pos, framed (addContraction i j name pos : M Line unit))
  ∧ (∀ name position, framed (addSummation name position : M Line unit))
  ∧ (∀ w h, framed (setSize w h : M Line unit))
  ∧ (∀ name p d,
       (3 ≤ length (filter (carries name) (tensors d)))%nat →
       ∃ d' dot,
         addSummation name (Some p) d = (Return tt, d')
         ∧ tensors d' !! length (tensors d) = Some dot
         ∧ length (Tensor.indices dot)
           = length (filter (carries name) (tensors d))
         ∧ Tensor.rectHeight dot = 0)
  ∧ (∃ dot,
       tensors (snd (addSummation "k" (Some (XY.mk 5 5)) (@diagramStar Line)))
         !! 3%nat = Some dot
       ∧ Tensor.rectHeight dot = 0
       ∧ length (filter (λ index, Index.pos index = Pos.right)
                        (Tensor.indices dot)) = 1%nat
       ∧ length (filter (λ index, Index.pos index = Pos.left)
                        (Tensor.indices dot)) = 1%nat).
Proof.
  split; [done|]. split.
  { intros name xy left right up down opts d. eexists.
    split; [apply run_addTensor_at|]. simpl.
    rewrite !filter_app, !length_app, !count_sideIndices. simpl. lia. }
  split; [apply framed_addTensor|].
  split; [apply framed_addContraction|].
  split; [apply framed_addSummation|]. split; [apply framed_setSize|].
  split.
  - intros name p d Hmany. rewrite <- length_relevantTensors in Hmany.
    destruct (run_addSummation_star name p d Hmany)
      as (ts' & added & Hrun & _ & _ & _ & Hdot & Hadded).
    eexists _, _. split; [exact Hrun|]. split; [exact Hdot|]. simpl.
    split; [|done]. by rewrite Hadded, length_relevantTensors.
  - eexists. split; [vm_compute; reflexivity|]. by vm_compute.
Qed.
End RectHeight.

(** ** The statements at concrete diagrams *)

(** C1 at the three tensors sharing ["k"], the dot placed at [(5, 5)]:
    the indices become ["k0"], ["k1"], ["k2"], and the dot gets a right, a
    down and a left index for the left, the up and the right one. *)
Lemma addSummation_star_witness :
  ∃ ts' dotIndices,
    addSummation "k" (Some (XY.mk 5 5)) (@diagramStar Empty_set) =
      (Return tt,
       mkDiagram ts'
         [Contraction.mk (Some 0%nat) (Some 3%nat) "k0" Pos.up;
          Contraction.mk (Some 1%nat) (Some 3%nat) "k1" Pos.up;
          Contraction.mk (Some 2%nat) (Some 3%nat) "k2" Pos.up]
         [] 300 300)
    ∧ ts' =
        [Tensor.mk 0 0 "A" "circle" true "up" 20
           [Index.mk "k0" Pos.left 0 true] 1;
         Tensor.mk 1 0 "B" "circle" true "up" 20
           [Index.mk "k1" Pos.up 0 true] 0;
         Tensor.mk 2 0 "C" "rectangle" true "up" 20
           [Index.mk "k2" Pos.right 0 true; Index.mk "l" Pos.right 1 true] 2;
         Tensor.mk 5 5 "dot" "dot" false "up" 20 dotIndices 0]
    ∧ dotIndices =
        [Index.mk "k0" Pos.right 0 false;
         Index.mk "k1" Pos.down 0 false;
         Index.mk "k2" Pos.left 0 false].
Proof.
  assert (Hmany : (3 ≤ length (filter (carries "k")
                                     (tensors (@diagramStar Empty_set))))%nat)
    by compute_done.
  assert (Hunique :
    Forall (λ tensor, carries "k" tensor → occurrences "k" tensor = 1%nat)
           (tensors (@diagramStar Empty_set))) by compute_done.
  destruct (addSummation_star "k" (XY.mk 5 5) diagramStar Hmany Hunique)
    as (ts' & dotIndices & Hrun & _ & _ & _ & _ & Hdot & Hlen & _ & Hrel).
  destruct (Hrel 0%nat 0%nat _ eq_refl eq_refl) as [H0 Hd0].
  destruct (Hrel 1%nat 1%nat _ eq_refl eq_refl) as [H1 Hd1].
  destruct (Hrel 2%nat 2%nat _ eq_refl eq_refl) as [H2 Hd2].
  destruct (Hd0 (Index.mk "k" Pos.left 0 true))
    as (i0 & Hi0 & Hn0 & Hs0 & Hp0 & Ho0);
    [by left|done|by intros raw|].
  destruct (Hd1 (Index.mk "k" Pos.up 0 true))
    as (i1 & Hi1 & Hn1 & Hs1 & Hp1 & Ho1);
    [by left|done|by intros raw|].
  destruct (Hd2 (Index.mk "k" Pos.right 0 true))
    as (i2 & Hi2 & Hn2 & Hs2 & Hp2 & Ho2);
    [by left|done|by intros raw|].
  destruct dotIndices as [|j0 [|j1 [|j2 [|j3 rest]]]]; try discriminate Hlen.
  injection Hi0 as ->. injection Hi1 as ->. injection Hi2 as ->.
  assert (E0 : i0 = Index.mk "k0" Pos.right 0 false).
  { destruct i0. simpl in *. by subst. }
  subst i0.
  assert (E1 : i1 = Index.mk "k1" Pos.down 0 false).
  { destruct i1. simpl in *. by subst. }
  subst i1.
  assert (E2 : i2 = Index.mk "k2" Pos.left 0 false).
  { destruct i2. simpl in *. by subst. }
  subst i2.
  assert (Hfour : length ts' = 4%nat).
  { assert (Hc : mkDiagram ts'
       [Contraction.mk (Some 0%nat) (Some 3%nat) "k0" Pos.up;
        Contraction.mk (Some 1%nat) (Some 3%nat) "k1" Pos.up;
        Contraction.mk (Some 2%nat) (Some 3%nat) "k2" Pos.up] [] 300 300
       = snd (addSummation "k" (Some (XY.mk 5 5)) (@diagramStar Empty_set)))
      by (by rewrite Hrun).
    apply (f_equal (λ d, length (tensors d))) in Hc. exact Hc. }
  eexists _, _. split; [exact Hrun|]. split; [|reflexivity].
  destruct ts' as [|t0 [|t1 [|t2 [|t3 [|t4 rest]]]]]; try discriminate Hfour.
  injection H0 as ->. injection H1 as ->. injection H2 as ->.
  injection Hdot as ->. reflexivity.
Defined.

(** C3 at the tensor with an upper index ["i"] of order 0 at [(2, 3)]: the
    dot goes to [(2, 2)]. *)
Lemma addSummation_single_witness :
  addSummation "i" None (@diagramUp Empty_set) =
  (Return tt, withDot diagramUp 0%nat "i" 2 2 Pos.down 0).
Proof.
  assert (Hr : tensors (@diagramUp Empty_set) !! 0%nat =
               Some (Tensor.mk 2 3 "A" "circle" true "up" 20
                       [Index.mk "i" Pos.up 0 true] 0)) by reflexivity.
  assert (Hcarries : carries "i" (Tensor.mk 2 3 "A" "circle" true "up" 20
                                    [Index.mk "i" Pos.up 0 true] 0))
    by compute_done.
  assert (Honly : ∀ r' tensor',
    tensors (@diagramUp Empty_set) !! r' = Some tensor' →
    carries "i" tensor' → r' = 0%nat).
  { intros [|r'] tensor' Hr' _; [reflexivity|discriminate Hr']. }
  destruct (addSummation_single "i" None diagramUp 0%nat _ Hr Hcarries Honly)
    as (index & Hhead & Hrun).
  injection Hhead as <-. exact Hrun.
Defined.



(** C5.  At the three tensors sharing ["k"], [addSummation("k")] without a
    position does not end in an error of the program's own: it ends in the
    run time's [TypeError], raised inside [addTensor] at the read of
    [pos.x], and leaves the diagram as it was.  No default position is
    computed either, which the documentation of the method announces
    ([diagrams.ts], line 193). *)
Lemma addSummation_missing_position_type_error :
  addSummation "k" None (@diagramStar Empty_set) = (Throw TypeError, diagramStar)
  ∧ ∀ message,
      fst (addSummation "k" None (@diagramStar Empty_set))
      ≠ Throw (Error message).
Proof. split; [by vm_compute|]. intros message. by vm_compute. Qed.

Lemma addSummation_missing_position_witness :
  addSummation "k" None (@diagramStar Empty_set) = (Throw TypeError, diagramStar).
Proof.
  assert (Hmany : (3 ≤ length (filter (carries "k")
                                     (tensors (@diagramStar Empty_set))))%nat)
    by compute_done.
  exact (addSummation_missing_position "k" diagramStar Hmany).
Defined.


(** C8: with a contraction named ["j"] and the only index named ["i"], the
    union of the loose and the contraction names is not the set of index
    names. *)
Lemma loose_union_not_index_names :
  ¬ (∀ s, s ∈ looseNames (@diagramDangling Empty_set)
          ∨ s ∈ contractionNames (@diagramDangling Empty_set)
          ↔ s ∈ allIndexNames (@diagramDangling Empty_set)).
Proof.
  intros Hunion.
  assert (Hnot : "j" ∉ allIndexNames (@diagramDangling Empty_set))
    by compute_done.
  apply Hnot, Hunion. right. compute_done.
Qed.

(** C10 at the three tensors sharing ["k"]. *)
Lemma addSummation_star_consumes_name_witness :
  ∃ d',
    addSummation "k" (Some (XY.mk 5 5)) (@diagramStar Empty_set) = (Return tt, d')
    ∧ Forall (λ tensor, "k" ∉ indexNames tensor) (tensors d')
    ∧ addSummation "k" None d' = (Throw (NoMatchingIndexError "k"), d').
Proof.
  assert (Hmany : (3 ≤ length (filter (carries "k")
                                     (tensors (@diagramStar Empty_set))))%nat)
    by compute_done.
  assert (Hunique :
    Forall (λ tensor, carries "k" tensor → occurrences "k" tensor = 1%nat)
           (tensors (@diagramStar Empty_set))) by compute_done.
  destruct (addSummation_star_consumes_name "k" (XY.mk 5 5) diagramStar
              Hmany Hunique) as (d' & Hrun & _ & Hgone & Hnext).
  exists d'. split; [exact Hrun|]. split; [exact Hgone|apply Hnext].
Defined.

(** C7 at a concrete diagram: summing over ["z"] on the diagram of one tensor
    [A] with the index ["i"]. *)
Lemma addSummation_no_matching_index_witness :
  Forall (λ tensor, "z" ∉ indexNames tensor) (tensors (@diagramA Empty_set))
  ∧ addSummation "z" None (@diagramA Empty_set)
    = (Throw (NoMatchingIndexError "z"), diagramA).
Proof.
  assert (H : Forall (λ tensor, "z" ∉ indexNames tensor)
                (tensors (@diagramA Empty_set))) by compute_done.
  split; [exact H|]. exact (addSummation_no_matching_index "z" None diagramA H).
Defined.

(** C8 at the diagram with the index ["i"] and the contraction ["j"]: ["i"]
    is loose, and not a contraction name. *)
Lemma looseIndices_spec_witness :
  "i" ∈ looseNames (@diagramDangling Empty_set)
  ∧ "i" ∉ contractionNames (@diagramDangling Empty_set).
Proof.
  assert (Hloose : "i" ∈ looseNames (@diagramDangling Empty_set))
    by compute_done.
  split; [exact Hloose|].
  exact (proj1 (proj2 (proj2 (looseIndices_spec diagramDangling))) "i" Hloose).
Defined.

(** C9 at the three tensors sharing ["k"]: the dot ends with three indices
    and [rectHeight = 0]. *)
Lemma rectHeight_fixed_at_creation_witness :
  ∃ d' dot,
    addSummation "k" (Some (XY.mk 5 5)) (@diagramStar Empty_set) = (Return tt, d')
    ∧ tensors d' !! 3%nat = Some dot
    ∧ length (Tensor.indices dot) = 3%nat
    ∧ Tensor.rectHeight dot = 0.
Proof.
  assert (Hmany : (3 ≤ length (filter (carries "k")
                                     (tensors (@diagramStar Empty_set))))%nat)
    by compute_done.
  exact (proj1 (proj2 (proj2 (proj2 (proj2 (proj2 (proj2
           rectHeight_fixed_at_creation))))))
           "k" (XY.mk 5 5) diagramStar Hmany).
Defined.

(** ** The examples of the specification, evaluated *)

Lemma example_einsum_pair :
  toFormulaEinsum (@diagramPair Empty_set) = "einsum('j,j->', A, B)".
Proof. by vm_compute. Qed.

Lemma example_latex_pair :
  toFormulaLaTeX (@diagramPair Empty_set) = "\sum_{j} A_{j} B_{j}".
Proof. by vm_compute. Qed.

Lemma example_summation_pair :
  contractions (@diagramPair Empty_set) =
    [Contraction.mk (Some 0%nat) (Some 1%nat) "j" Pos.up]
  ∧ length (tensors (@diagramPair Empty_set)) = 2%nat.
Proof. by vm_compute. Qed.

Lemma example_star_renames :
  indexNames <$> tensors (snd (addSummation "k" (Some (XY.mk 5 5))
                                 (@diagramStar Empty_set))) =
    [["k0"]; ["k1"]; ["k2"; "l"]; ["k0"; "k1"; "k2"]]
  ∧ length (contractions (snd (addSummation "k" (Some (XY.mk 5 5))
                                 (@diagramStar Empty_set)))) = 3%nat.
Proof. by vm_compute. Qed.

(** ** Every branch of [addSummation], run *)

Section Branches.
Context {Line : Type}.
Implicit Types d : TensorDiagramCore Line.

Lemma refsFrom_app {A} (P : A → Prop) `{∀ a, Decision (P a)} i (l1 l2 : list A) :
  refsFrom P i (l1 ++ l2) =
  refsFrom P i l1 ++ refsFrom P (i + length l1)%nat l2.
Proof.
  revert i. induction l1 as [|a l1 IH]; intros i; simpl.
  - by rewrite Nat.add_0_r.
  - rewrite IH, Nat.add_succ_r. simpl. by destruct (decide (P a)).
Qed.

Lemma last_snoc_tensorAt d (tensor : Tensor.t) :
  tensorAt (withTensors (tensors d ++ [tensor]) d)
    (Z.of_nat (length (tensors d ++ [tensor])) - 1)
  = Some (length (tensors d)).
Proof.
  unfold tensorAt. simpl. rewrite length_app. simpl.
  rewrite decide_True by lia. f_equal. lia.
Qed.

(** The single-tensor branch. *)
Lemma run_addSummation_one name position d r tensor index :
  relevantTensors name d = [r] →
  tensors d !! r = Some tensor →
  head (filter (λ index, Index.name index = name) (Tensor.indices tensor))
    = Some index →
  addSummation name position d =
  match dotPlacement tensor index with
  | Some (x, y, side, rectHeight) =>
      (Return tt, withDot d r name x y side rectHeight)
  | None => (Throw (InvalidIndexPositionError (Index.pos index) name), d)
  end.
Proof.
  intros Hrel Hr Hhead.
  assert (Hlen : (r < length (tensors d))%nat) by by eapply lookup_lt_Some.
  unfold addSummation. rewrite run_bind. cbn [get]. cbv beta iota.
  rewrite Hrel. js_step (run_prop (Some r) _ _ tensor Hr).
  rewrite Hhead, run_bind. unfold dotPlacement.
  destruct (Index.pos index) eqn:Hpos; cbv zeta;
    try (do 2 js_step (run_prop (Some r) _ _ tensor Hr);
         rewrite run_addTensor_at; cbv beta iota;
         rewrite (run_contract_with_last _ _ _ _ Hlen), last_snoc_tensorAt;
         reflexivity).
  reflexivity.
Qed.

(** The two-tensor branch. *)
Lemma run_addSummation_two name position d r0 r1 :
  relevantTensors name d = [r0; r1] →
  addSummation name position d =
  (Return tt,
   withContractions
     (contractions d ++ [Contraction.mk (Some r0) (Some r1) name Pos.up]) d).
Proof.
  intros Hrel.
  assert (Hr0 : (r0 < length (tensors d))%nat).
  { apply (relevantTensors_valid name). rewrite Hrel. by left. }
  assert (Hr1 : (r1 < length (tensors d))%nat).
  { apply (relevantTensors_valid name). rewrite Hrel. right. by left. }
  unfold addSummation. rewrite run_bind. cbn [get]. cbv beta iota.
  rewrite Hrel. js_step (run_indexOf _ _ Hr0). js_step (run_indexOf _ _ Hr1).
  by rewrite run_addContraction, !tensorAt_in_range.
Qed.

Lemma relevantTensors_lookup name d r :
  r ∈ relevantTensors name d →
  ∃ tensor index,
    tensors d !! r = Some tensor ∧ carries name tensor
    ∧ head (filter (λ index, Index.name index = name) (Tensor.indices tensor))
      = Some index
    ∧ Index.name index = name.
Proof.
  intros (tensor & Hr & Hcarries)%elem_of_relevantTensors.
  destruct (carries_head _ _ Hcarries) as (index & Hhead & Hname).
  by exists tensor, index.
Qed.
End Branches.

(** ** Placing tensors *)

Section Placing.
Context {Line : Type}.
Implicit Types d : TensorDiagramCore Line.

Lemma filter_all {A} (P : A → Prop) `{∀ a, Decision (P a)} (l : list A) :
  Forall P l → filter P l = l.
Proof.
  induction 1 as [|a l Ha _ IH]; [done|].
  by rewrite filter_cons_True, IH.
Qed.

Lemma filter_none {A} (P : A → Prop) `{∀ a, Decision (P a)} (l : list A) :
  Forall (λ a, ¬ P a) l → filter P l = [].
Proof.
  induction 1 as [|a l Ha _ IH]; [done|].
  by rewrite filter_cons_False, IH.
Qed.

Lemma filter_sideIndices (side pos : Pos.t) (names : list string) :
  filter (λ index, Index.pos index = side) (sideIndices pos names) =
  if decide (pos = side) then sideIndices pos names else [].
Proof.
  pose proof (sideIndices_pos pos names) as Hpos.
  destruct (decide (pos = side)) as [<-|Hne].
  - by apply filter_all.
  - apply filter_none. eapply Forall_impl; [exact Hpos|].
    intros index -> ?. done.
Qed.


Lemma sideIndices_orders (pos : Pos.t) (names : list string) :
  Index.order <$> sideIndices pos names = Z.of_nat <$> seq 0 (length names).
Proof.
  unfold sideIndices. apply list_eq. intros i.
  rewrite !list_lookup_fmap, list_lookup_imap.
  destruct (names !! i) as [s|] eqn:Hi; simpl.
  - rewrite lookup_seq_lt; [done|]. by eapply lookup_lt_Some.
  - rewrite lookup_seq_ge; [done|]. by apply lookup_ge_None.
Qed.

Lemma length_sideIndices (pos : Pos.t) (names : list string) :
  length (sideIndices pos names) = length names.
Proof. apply length_imap. Qed.

(** The four blocks of indices that [addTensor] builds. *)
Lemma filter_blocks (side : Pos.t) (left right up down : list string) :
  filter (λ index, Index.pos index = side)
    (sideIndices Pos.left left ++ sideIndices Pos.right right ++
     sideIndices Pos.up up ++ sideIndices Pos.down down) =
  match side with
  | Pos.left => sideIndices Pos.left left
  | Pos.right => sideIndices Pos.right right
  | Pos.up => sideIndices Pos.up up
  | Pos.down => sideIndices Pos.down down
  | Pos.outside _ => []
  end.
Proof.
  rewrite !filter_app, !filter_sideIndices.
  destruct side; simpl; by rewrite ?app_nil_r.
Qed.

Lemma blocks_dense (left right up down : list string) :
  denseOrders
    (sideIndices Pos.left left ++ sideIndices Pos.right right ++
     sideIndices Pos.up up ++ sideIndices Pos.down down).
Proof.
  intros side. unfold sideOrders. rewrite filter_blocks.
  destruct side; simpl; by rewrite ?sideIndices_orders, ?length_sideIndices.
Qed.

(** X1.  On the four sides [opposite] is an involution without fixed
    point, and it yields a side. *)
Theorem opposite_involution (pos : Pos.t) :
  (∀ raw, pos ≠ Pos.outside raw) →
  opposite (opposite pos) = pos
  ∧ opposite pos ≠ pos
  ∧ ∀ raw, opposite pos ≠ Pos.outside raw.
Proof.
  intros Hside. destruct pos as [| | | |raw]; simpl; try done.
  by destruct (Hside raw).
Qed.


(** The shape of a tensor that [addTensor] appends is the option
    [shape] when it is given; otherwise it is ["rectangle"] exactly when
    [left] or [right] has more than one name, and ["circle"] if not; [up]
    and [down] play no part.  The label is shown unless the option says
    otherwise, its position defaults to ["up"] and the size to 20. *)
Lemma addTensor_shape name xy left right up down opts d :
  ∃ tensor,
    addTensor name (Some (RelPos.at_ xy)) left right up down opts d =
      (Return tt, withTensors (tensors d ++ [tensor]) d)
    ∧ (∀ shape, TensorOpts.shape opts = Some shape →
                 Tensor.shape tensor = shape)
    ∧ (TensorOpts.shape opts = None →
       (Tensor.shape tensor = "rectangle"
        ↔ (1 < length left)%nat ∨ (1 < length right)%nat)
       ∧ (Tensor.shape tensor = "circle"
          ↔ ¬ ((1 < length left)%nat ∨ (1 < length right)%nat)))
    ∧ Tensor.showLabel tensor = default true (TensorOpts.showLabel opts)
    ∧ Tensor.labPos tensor = default "up" (TensorOpts.labelPos opts)
    ∧ Tensor.size tensor = default 20 (TensorOpts.size opts).
Proof.
  eexists. split; [apply run_addTensor_at|]. simpl.
  split; [by intros shape ->|]. split; [|done].
  intros ->. simpl.
  destruct (bool_decide (1 < length left)%nat) eqn:Hl;
    destruct (bool_decide (1 < length right)%nat) eqn:Hr; simpl;
    try apply bool_decide_eq_true in Hl; try apply bool_decide_eq_true in Hr;
    try apply bool_decide_eq_false in Hl; try apply bool_decide_eq_false in Hr;
    split; split; try done; try tauto.
Qed.

Lemma last_snoc_tensor (ts : list Tensor.t) (tensor : Tensor.t) :
  last (ts ++ [tensor]) = Some tensor.
Proof. by rewrite last_snoc. Qed.

(** X3.  A relative placement right after any successful [addTensor]
    never fails, also when the diagram was empty: a tensor placed at
    [(x, y)] followed by ["right"] gives a second tensor at [(x + 1, y)],
    and followed by ["down"] one at [(x, y + 1)]. *)
Theorem addTensor_chain name xy left right up down opts
    name' left' right' up' down' opts' d :
  ∃ tensor,
    addTensor name (Some (RelPos.at_ xy)) left right up down opts d =
      (Return tt, withTensors (tensors d ++ [tensor]) d)
    ∧ (∃ next,
         (addTensor name (Some (RelPos.at_ xy)) left right up down opts;;
          addTensor name' (Some RelPos.right) left' right' up' down' opts') d =
           (Return tt, withTensors (tensors d ++ [tensor; next]) d)
         ∧ Tensor.x next = XY.x xy + 1 ∧ Tensor.y next = XY.y xy)
    ∧ (∃ next,
         (addTensor name (Some (RelPos.at_ xy)) left right up down opts;;
          addTensor name' (Some RelPos.down) left' right' up' down' opts') d =
           (Return tt, withTensors (tensors d ++ [tensor; next]) d)
         ∧ Tensor.x next = XY.x xy ∧ Tensor.y next = XY.y xy + 1).
Proof.
  eexists. split; [apply run_addTensor_at|].
  split; eexists; rewrite run_bind, run_addTensor_at; cbv beta iota.
  - rewrite run_addTensor_right. cbn [tensors withTensors].
    rewrite last_snoc_tensor, run_addTensor_at. cbn.
    rewrite <- app_assoc. done.
  - rewrite run_addTensor_down. cbn [tensors withTensors].
    rewrite last_snoc_tensor, run_addTensor_at. cbn.
    rewrite <- app_assoc. done.
Qed.
End Placing.

(** ** Summation over an index that two tensors carry, and repetition *)

Section Pair.
Context {Line : Type}.
Implicit Types d : TensorDiagramCore Line.




(** X7.  After the single-tensor branch the dot itself carries [name]:
    when exactly one tensor carries an index named [name], on one of the
    four sides, a second [addSummation(name)] takes the two-tensor branch
    and records the contraction from the tensor to the dot again; only one
    dot is added. *)
Theorem addSummation_single_twice name position position' d r tensor index
    x y side rectHeight :
  tensors d !! r = Some tensor →
  (∀ r' tensor',
     tensors d !! r' = Some tensor' → carries name tensor' → r' = r) →
  head (filter (λ index, Index.name index = name) (Tensor.indices tensor))
    = Some index →
  dotPlacement tensor index = Some (x, y, side, rectHeight) →
  let c := Contraction.mk (Some r) (Some (length (tensors d))) name Pos.up in
  let dot :=
    Tensor.mk x y "dot" "dot" false "up" 20 [Index.mk name side 0 true]
      rectHeight in
  (addSummation name position;; addSummation name position') d =
  (Return tt,
   mkDiagram (tensors d ++ [dot]) (contractions d ++ [c; c])
     (lines d) (width d) (height d)).
Proof.
  intros Hr Honly Hhead Hplace c dot.
  assert (Hcarries : carries name tensor).
  { apply head_Some_elem_of, list_elem_of_filter in Hhead as [Hname Hin].
    apply Exists_exists. by exists index. }
  pose proof (relevantTensors_single _ _ _ _ Hr Hcarries Honly) as Hrel.
  rewrite run_bind,
    (run_addSummation_one _ _ _ _ _ _ Hrel Hr Hhead), Hplace.
  cbv beta iota.
  assert (Hrel' : relevantTensors name (withDot d r name x y side rectHeight)
                  = [r; length (tensors d)]).
  { unfold relevantTensors, withDot. cbn [tensors].
    rewrite refsFrom_app. fold (relevantTensors name d). rewrite Hrel.
    simpl. rewrite decide_True; [done|].
    unfold carries. simpl. by left. }
  rewrite (run_addSummation_two _ _ _ _ _ Hrel').
  unfold withContractions, withDot. simpl. by rewrite <- app_assoc.
Qed.
End Pair.

(** ** What a call of [addSummation] leaves behind, branch by branch *)

Section WholeCall.
Context {Line : Type}.
Implicit Types d : TensorDiagramCore Line.

Lemma sameButNames_refl tensor : sameButNames tensor tensor.
Proof. split; [by destruct tensor|done]. Qed.

Lemma indexShape_setName new (j : nat) (l : list Index.t) :
  indexShape <$> alter (Index.setName new) j l = indexShape <$> l.
Proof.
  revert j. induction l as [|index l IH]; intros [|j]; csimpl; try done.
  f_equal. apply IH.
Qed.

Lemma sameButNames_rename new j tensor :
  sameButNames tensor
    (Tensor.setIndices
       (alter (Index.setName new) j (Tensor.indices tensor)) tensor).
Proof. split; [done|]. simpl. apply indexShape_setName. Qed.

Lemma continues_refl d : continues d d.
Proof.
  split; [|split; [|done]].
  - intros r tensor Hr. exists tensor. split; [done|apply sameButNames_refl].
  - exists []. by rewrite app_nil_r.
Qed.

Lemma continues_push d ts cs :
  continues d
    (mkDiagram (tensors d ++ ts) (contractions d ++ cs)
       (lines d) (width d) (height d)).
Proof.
  split; [|split; [by exists cs|done]].
  intros r tensor Hr. exists tensor. simpl.
  split; [by apply lookup_app_l_Some|apply sameButNames_refl].
Qed.

(** [addSummation], whatever its branch, continues the diagram and leaves
    the canvas size alone. *)
Lemma addSummation_continues name position d :
  continues d (snd (addSummation name position d))
  ∧ width (snd (addSummation name position d)) = width d
  ∧ height (snd (addSummation name position d)) = height d.
Proof.
  destruct (relevantTensors name d) as [|r0 [|r1 [|r2 rest]]] eqn:Hrel.
  - rewrite (run_addSummation_none _ _ _ Hrel). split; [apply continues_refl|done].
  - destruct (relevantTensors_lookup name d r0) as (tensor & index & Hr & _ & Hhead & _);
      [rewrite Hrel; by left|].
    rewrite (run_addSummation_one _ _ _ _ _ _ Hrel Hr Hhead).
    destruct (dotPlacement tensor index) as [[[[x y] side] h]|]; simpl.
    + split; [apply continues_push|done].
    + split; [apply continues_refl|done].
  - rewrite (run_addSummation_two _ _ _ _ _ Hrel). simpl.
    split; [|done].
    pose proof (continues_push d [] [Contraction.mk (Some r0) (Some r1) name Pos.up])
      as Hc. by rewrite app_nil_r in Hc.
  - destruct position as [p|].
    + assert (Hmany : (3 ≤ length (relevantTensors name d))%nat)
        by (rewrite Hrel; simpl; lia).
      destruct (run_addSummation_star name p d Hmany)
        as (ts' & added & Hrun & Hlen & Hkeep & Hrenamed & Hdot & Hadded).
      rewrite Hrun. simpl. split; [|done].
      split; [|split; [by eexists|done]]. simpl.
      intros r tensor Hr.
      destruct (decide (r ∈ relevantTensors name d)) as [Hin|Hnot].
      * apply list_elem_of_lookup_1 in Hin as [k Hk].
        destruct (Hrenamed k r tensor Hk Hr) as (j & index & _ & Hts' & _).
        eexists. split; [exact Hts'|apply sameButNames_rename].
      * exists tensor. split; [|apply sameButNames_refl].
        rewrite Hkeep; [done..|]. apply lookup_lt_Some in Hr. lia.
    + assert (Hmany : (3 ≤ length (filter (carries name) (tensors d)))%nat)
        by (rewrite <- length_relevantTensors, Hrel; simpl; lia).
      rewrite (run_addSummation_many _ _ _ _ _ _ _ Hrel), run_bind.
      simpl fmap. rewrite run_addTensor_undefined.
      split; [apply continues_refl|done].
Qed.

(** X12.  No builder method removes, moves or reorders what the diagram
    holds.  After [addTensor], [addContraction] or [addSummation], returning
    or throwing, every tensor is still at its place in the sequence and is
    the same up to the names of its indices, the earlier contractions are
    the first contractions, and the lines and the canvas size are the
    same; [setSize] changes the canvas size only. *)
Theorem builder_continues :
  (∀ name position left right up down opts d,
     let d' := snd (addTensor name position left right up down opts d) in
     continues d d' ∧ width d' = width d ∧ height d' = height d
     ∧ contractions d' = contractions d)
  ∧ (∀ i j name pos d,
       let d' := snd (addContraction i j name pos d) in
       continues d d' ∧ width d' = width d ∧ height d' = height d
       ∧ tensors d' = tensors d)
  ∧ (∀ name position d,
       let d' := snd (addSummation name position d) in
       continues d d' ∧ width d' = width d ∧ height d' = height d)
  ∧ (∀ w h (d : TensorDiagramCore Line),
       snd (setSize w h d) =
       mkDiagram (tensors d) (contractions d) (lines d) w h).
Proof.
  split.
  { intros name position left right up down opts d.
    destruct position as [[| | |xy]|]; cbv zeta.
    - change (addTensor name (Some RelPos.start) left right up down opts d)
        with (addTensor name (Some (RelPos.at_ (XY.mk 0 0)))
                left right up down opts d).
      rewrite run_addTensor_at. simpl. split; [|done].
      pose proof (continues_push d [createTensor 0 0 name
        (sideIndices Pos.left left ++ sideIndices Pos.right right ++
         sideIndices Pos.up up ++ sideIndices Pos.down down)
        (default (if bool_decide (1 < length left)%nat
                     || bool_decide (1 < length right)%nat
                  then "rectangle" else "circle") (TensorOpts.shape opts))
        (default true (TensorOpts.showLabel opts))
        (default "up" (TensorOpts.labelPos opts))
        (default 20 (TensorOpts.size opts))] []) as Hc.
      by rewrite app_nil_r in Hc.
    - rewrite run_addTensor_right. destruct (last (tensors d)) as [lastT|].
      + rewrite run_addTensor_at. simpl. split; [|done].
        match goal with |- continues d (withTensors (tensors d ++ ?ts) d) =>
          pose proof (continues_push d ts []) as Hc end.
        by rewrite app_nil_r in Hc.
      + simpl. split; [apply continues_refl|done].
    - rewrite run_addTensor_down. destruct (last (tensors d)) as [lastT|].
      + rewrite run_addTensor_at. simpl. split; [|done].
        match goal with |- continues d (withTensors (tensors d ++ ?ts) d) =>
          pose proof (continues_push d ts []) as Hc end.
        by rewrite app_nil_r in Hc.
      + simpl. split; [apply continues_refl|done].
    - rewrite run_addTensor_at. simpl. split; [|done].
      match goal with |- continues d (withTensors (tensors d ++ ?ts) d) =>
        pose proof (continues_push d ts []) as Hc end.
      by rewrite app_nil_r in Hc.
    - rewrite run_addTensor_undefined. simpl. split; [apply continues_refl|done]. }
  split.
  { intros i j name pos d. cbv zeta. rewrite run_addContraction. simpl.
    split; [|done].
    pose proof (continues_push d [] [Contraction.mk (tensorAt d i) (tensorAt d j) name pos])
      as Hc. by rewrite app_nil_r in Hc. }
  split; [intros; apply addSummation_continues|]. done.
Qed.
End WholeCall.

(** ** Failures of the builder *)

Section Failures.
Context {Line : Type}.
Implicit Types d : TensorDiagramCore Line.

(** X8.  [addSummation] fails in three situations only, and then it has
    changed nothing: no tensor carries the name (the no-matching-index
    error); the single tensor that carries it has its first such index at a
    position that is none of the four sides (the invalid-position error);
    three or more tensors carry it and no position is given (the run
    time's [TypeError]). *)
Theorem addSummation_failure name position d e d' :
  addSummation name position d = (Throw e, d') →
  d' = d
  ∧ ((e = NoMatchingIndexError name
      ∧ Forall (λ tensor, name ∉ indexNames tensor) (tensors d))
     ∨ (∃ r tensor index raw,
          e = InvalidIndexPositionError (Pos.outside raw) name
          ∧ length (filter (carries name) (tensors d)) = 1%nat
          ∧ tensors d !! r = Some tensor
          ∧ head (filter (λ index, Index.name index = name)
                         (Tensor.indices tensor)) = Some index
          ∧ Index.pos index = Pos.outside raw)
     ∨ (e = TypeError ∧ position = None
        ∧ (3 ≤ length (filter (carries name) (tensors d)))%nat)).
Proof.
  rewrite <- length_relevantTensors.
  destruct (relevantTensors name d) as [|r0 [|r1 [|r2 rest]]] eqn:Hrel.
  - rewrite (run_addSummation_none _ _ _ Hrel). intros [= <- <-].
    split; [done|]. left. split; [done|].
    apply refsFrom_nil in Hrel. eapply Forall_impl; [exact Hrel|].
    intros tensor Hnot Hin. by apply Hnot, carries_indexNames.
  - destruct (relevantTensors_lookup name d r0)
      as (tensor & index & Hr & _ & Hhead & _); [rewrite Hrel; by left|].
    rewrite (run_addSummation_one _ _ _ _ _ _ Hrel Hr Hhead).
    unfold dotPlacement. destruct (Index.pos index) as [| | | |raw] eqn:Hpos;
      try discriminate.
    intros [= <- <-]. split; [done|]. right. left.
    by exists r0, tensor, index, raw.
  - by rewrite (run_addSummation_two _ _ _ _ _ Hrel).
  - destruct position as [p|].
    + assert (Hmany : (3 ≤ length (relevantTensors name d))%nat)
        by (rewrite Hrel; simpl; lia).
      destruct (run_addSummation_star name p d Hmany) as (ts' & added & Hrun & _).
      by rewrite Hrun.
    + rewrite (run_addSummation_many _ _ _ _ _ _ _ Hrel), run_bind.
      simpl fmap. rewrite run_addTensor_undefined. intros [= <- <-].
      split; [done|]. right. right. simpl. split; [done|]. split; [done|lia].
Qed.

(** X4.  [addTensor] fails in two situations only, each with the run
    time's [TypeError] and with nothing changed: no position is given, or
    the position is ["right"] or ["down"] and the diagram has no tensor. *)
Theorem addTensor_failure name position left right up down opts d e d' :
  addTensor name position left right up down opts d = (Throw e, d') →
  d' = d ∧ e = TypeError
  ∧ (position = None
     ∨ (tensors d = []
        ∧ (position = Some RelPos.right ∨ position = Some RelPos.down))).
Proof.
  destruct position as [[| | |xy]|].
  - change (addTensor name (Some RelPos.start) left right up down opts d)
      with (addTensor name (Some (RelPos.at_ (XY.mk 0 0)))
              left right up down opts d).
    by rewrite run_addTensor_at.
  - rewrite run_addTensor_right.
    destruct (last (tensors d)) as [lastT|] eqn:Hlast.
    + by rewrite run_addTensor_at.
    + intros [= <- <-]. apply last_None in Hlast.
      split; [done|]. split; [done|]. right. split; [done|]. by left.
  - rewrite run_addTensor_down.
    destruct (last (tensors d)) as [lastT|] eqn:Hlast.
    + by rewrite run_addTensor_at.
    + intros [= <- <-]. apply last_None in Hlast.
      split; [done|]. split; [done|]. right. split; [done|]. by right.
  - by rewrite run_addTensor_at.
  - rewrite run_addTensor_undefined. intros [= <- <-].
    split; [done|]. split; [done|]. by left.
Qed.
End Failures.

(** ** The contractions that [addSummation] records *)

Section Links.
Context {Line : Type}.
Implicit Types d : TensorDiagramCore Line.

Lemma carries_renamed_at new j index (l : list Index.t) tensor :
  l !! j = Some index →
  carries new (Tensor.setIndices (alter (Index.setName new) j l) tensor).
Proof.
  intros Hj. unfold carries. simpl. apply Exists_exists.
  exists (Index.setName new index). split; [|done].
  apply list_elem_of_lookup. exists j.
  by rewrite list_lookup_alter_eq, Hj.
Qed.

(** X9.  Every contraction that [addSummation] records joins two tensors
    of the resulting diagram that both carry an index of the contraction's
    name: the check that [addContraction] lacks is not needed for the
    contractions that [addSummation] makes. *)
Theorem addSummation_links name position d :
  ∃ added,
    contractions (snd (addSummation name position d)) = contractions d ++ added
    ∧ Forall (linked (snd (addSummation name position d))) added.
Proof.
  destruct (relevantTensors name d) as [|r0 [|r1 [|r2 rest]]] eqn:Hrel.
  - rewrite (run_addSummation_none _ _ _ Hrel). exists [].
    split; [by rewrite app_nil_r|done].
  - destruct (relevantTensors_lookup name d r0)
      as (tensor & index & Hr & Hcarries & Hhead & _); [rewrite Hrel; by left|].
    rewrite (run_addSummation_one _ _ _ _ _ _ Hrel Hr Hhead).
    destruct (dotPlacement tensor index) as [[[[x y] side] h]|]; simpl.
    + eexists. split; [done|]. apply Forall_singleton.
      eexists r0, (length (tensors d)), tensor, _. simpl.
      split; [done|]. split; [done|].
      split; [by apply lookup_app_l_Some|].
      split; [by rewrite lookup_app_r, Nat.sub_diag|].
      split; [done|]. unfold carries. simpl. by left.
    + exists []. split; [by rewrite app_nil_r|done].
  - rewrite (run_addSummation_two _ _ _ _ _ Hrel). simpl.
    eexists. split; [done|]. apply Forall_singleton.
    assert (H0 : r0 ∈ relevantTensors name d) by (rewrite Hrel; by left).
    assert (H1 : r1 ∈ relevantTensors name d)
      by (rewrite Hrel; right; by left).
    apply elem_of_relevantTensors in H0 as (tensor0 & ? & ?).
    apply elem_of_relevantTensors in H1 as (tensor1 & ? & ?).
    by exists r0, r1, tensor0, tensor1.
  - destruct position as [p|].
    + assert (Hmany : (3 ≤ length (relevantTensors name d))%nat)
        by (rewrite Hrel; simpl; lia).
      destruct (run_addSummation_star name p d Hmany)
        as (ts' & added & Hrun & Hlen & Hkeep & Hrenamed & Hdot & Hadded).
      rewrite Hrun. simpl. eexists. split; [done|].
      apply Forall_lookup. intros k c.
      rewrite list_lookup_imap. intros (r & Hk & ->)%fmap_Some.
      assert (Hin : r ∈ relevantTensors name d)
        by by eapply list_elem_of_lookup_2.
      apply elem_of_relevantTensors in Hin as (tensor & Hr & _).
      destruct (Hrenamed k r tensor Hk Hr)
        as (j & index & Hfind & Hts' & Hk').
      apply list_find_Some in Hfind as (Hj & _ & _).
      eexists r, (length (tensors d)), _, _. simpl.
      split; [done|]. split; [done|]. split; [exact Hts'|].
      split; [exact Hdot|]. split; [by eapply carries_renamed_at|].
      unfold carries. simpl. apply Exists_exists.
      eexists. split; [by eapply list_elem_of_lookup_2|done].
    + rewrite (run_addSummation_many _ _ _ _ _ _ _ Hrel), run_bind.
      simpl fmap. rewrite run_addTensor_undefined. exists [].
      split; [by rewrite app_nil_r|done].
Qed.
End Links.

(** ** The orders of the indices stay dense *)

Section Dense.
Context {Line : Type}.
Implicit Types d : TensorDiagramCore Line.

Lemma side_shape (side : Pos.t) (l l' : list Index.t) :
  indexShape <$> l' = indexShape <$> l →
  sideOrders side l' = sideOrders side l
  ∧ length (filter (λ index, Index.pos index = side) l')
    = length (filter (λ index, Index.pos index = side) l).
Proof.
  revert l'. induction l as [|x l IH]; intros [|x' l']; try done.
  csimpl. intros [= Hpos Horder _ Htail]. destruct (IH l' Htail) as [IH1 IH2].
  unfold sideOrders in *. rewrite !filter_cons, Hpos.
  destruct (decide (Index.pos x = side)); csimpl; by rewrite ?Horder, ?IH1, ?IH2.
Qed.

Lemma denseOrders_shape (l l' : list Index.t) :
  indexShape <$> l' = indexShape <$> l → denseOrders l → denseOrders l'.
Proof.
  intros Hshape Hdense side.
  destruct (side_shape side l l' Hshape) as [-> ->]. apply Hdense.
Qed.

Lemma dense_snoc (l : list Index.t) (x : Index.t) :
  denseOrders l →
  Index.order x =
    Z.of_nat (length (filter (λ index, Index.pos index = Index.pos x) l)) →
  denseOrders (l ++ [x]).
Proof.
  intros Hdense Horder side. unfold sideOrders.
  rewrite filter_app, fmap_app, length_app, filter_cons. simpl.
  specialize (Hdense side). unfold sideOrders in Hdense. rewrite Hdense.
  destruct (decide (Index.pos x = side)) as [<-|]; simpl.
  - rewrite Nat.add_1_r, seq_S, fmap_app. simpl. by rewrite Horder.
  - by rewrite Nat.add_0_r, app_nil_r.
Qed.

(** A list in which every index has for order the number of earlier
    indices on its side. *)
Lemma dense_of_counts (l : list Index.t) :
  (∀ k x, l !! k = Some x →
          Index.order x =
          Z.of_nat (length (filter (λ index, Index.pos index = Index.pos x)
                                   (take k l)))) →
  denseOrders l.
Proof.
  induction l as [|x l IH] using rev_ind; intros Hcount; [by intros side|].
  apply dense_snoc.
  - apply IH. intros k y Hk.
    specialize (Hcount k y (lookup_app_l_Some _ _ _ _ Hk)).
    rewrite take_app_le in Hcount; [done|].
    apply lookup_lt_Some in Hk. lia.
  - specialize (Hcount (length l) x).
    rewrite take_app_length in Hcount. apply Hcount.
    by rewrite lookup_app_r, Nat.sub_diag.
Qed.

Lemma dense_single name side showLabel :
  denseOrders [Index.mk name side 0 showLabel].
Proof.
  intros side'. unfold sideOrders. rewrite filter_cons. simpl.
  by destruct (decide (side = side')).
Qed.

Lemma addSummation_dense name position d :
  Forall (λ tensor, denseOrders (Tensor.indices tensor)) (tensors d) →
  Forall (λ tensor, denseOrders (Tensor.indices tensor))
         (tensors (snd (addSummation name position d))).
Proof.
  intros Hdense.
  destruct (relevantTensors name d) as [|r0 [|r1 [|r2 rest]]] eqn:Hrel.
  - by rewrite (run_addSummation_none _ _ _ Hrel).
  - destruct (relevantTensors_lookup name d r0)
      as (tensor & index & Hr & _ & Hhead & _); [rewrite Hrel; by left|].
    rewrite (run_addSummation_one _ _ _ _ _ _ Hrel Hr Hhead).
    destruct (dotPlacement tensor index) as [[[[x y] side] h]|]; simpl; [|done].
    apply Forall_app. split; [done|]. apply Forall_singleton, dense_single.
  - by rewrite (run_addSummation_two _ _ _ _ _ Hrel).
  - destruct position as [p|].
    + assert (Hmany : (3 ≤ length (relevantTensors name d))%nat)
        by (rewrite Hrel; simpl; lia).
      destruct (run_addSummation_star name p d Hmany)
        as (ts' & added & Hrun & Hlen & Hkeep & Hrenamed & Hdot & Hadded).
      rewrite Hrun. simpl. rewrite Forall_lookup in Hdense.
      apply Forall_lookup. intros r tensor' Hr'.
      destruct (decide (r = length (tensors d))) as [->|Hne].
      * rewrite Hdot in Hr'. injection Hr' as <-. simpl.
        apply dense_of_counts. intros k x Hk.
        assert (Hk_lt : (k < length (relevantTensors name d))%nat).
        { rewrite <- Hadded. by eapply lookup_lt_Some. }
        apply lookup_lt_is_Some_2 in Hk_lt as [r Hr].
        assert (Hin : r ∈ relevantTensors name d)
          by by eapply list_elem_of_lookup_2.
        apply elem_of_relevantTensors in Hin as (tensor & Ht & _).
        destruct (Hrenamed k r tensor Hr Ht) as (j & index & _ & _ & Hk').
        rewrite Hk in Hk'. by injection Hk' as ->.
      * destruct (decide (r ∈ relevantTensors name d)) as [Hin|Hnot].
        -- pose proof Hin as (tensor & Ht & _)%elem_of_relevantTensors.
           apply list_elem_of_lookup_1 in Hin as [k Hk].
           destruct (Hrenamed k r tensor Hk Ht) as (j & index & _ & Hts' & _).
           rewrite Hts' in Hr'. injection Hr' as <-. simpl.
           eapply denseOrders_shape; [apply indexShape_setName|].
           by eapply Hdense.
        -- rewrite Hkeep in Hr' by done. by eapply Hdense.
    + rewrite (run_addSummation_many _ _ _ _ _ _ _ Hrel), run_bind.
      simpl fmap. by rewrite run_addTensor_undefined.
Qed.

Lemma addTensor_dense name position left right up down opts d :
  Forall (λ tensor, denseOrders (Tensor.indices tensor)) (tensors d) →
  Forall (λ tensor, denseOrders (Tensor.indices tensor))
         (tensors (snd (addTensor name position left right up down opts d))).
Proof.
  intros Hdense.
  assert (Hat : ∀ xy,
    Forall (λ tensor, denseOrders (Tensor.indices tensor))
      (tensors (snd (addTensor name (Some (RelPos.at_ xy))
                       left right up down opts d)))).
  { intros xy. rewrite run_addTensor_at. simpl.
    apply Forall_app. split; [done|]. apply Forall_singleton, blocks_dense. }
  destruct position as [[| | |xy]|].
  - apply (Hat (XY.mk 0 0)).
  - rewrite run_addTensor_right. destruct (last (tensors d)); [apply Hat|done].
  - rewrite run_addTensor_down. destruct (last (tensors d)); [apply Hat|done].
  - apply Hat.
  - by rewrite run_addTensor_undefined.
Qed.

(** X13.  The builder keeps the orders dense: if on every side of every
    tensor the indices are numbered 0, 1, ... in array order, the same
    holds after [addTensor], [addContraction], [addSummation] and [setSize],
    returning or throwing; in particular for the dot to which the last
    branch of [addSummation] adds one index per relevant tensor. *)
Theorem builder_keeps_dense_orders :
  let dense (d : TensorDiagramCore Line) :=
    Forall (λ tensor, denseOrders (Tensor.indices tensor)) (tensors d) in
  (∀ name position left right up down opts d,
     dense d →
     dense (snd (addTensor name position left right up down opts d)))
  ∧ (∀ i j name pos d, dense d → dense (snd (addContraction i j name pos d)))
  ∧ (∀ name position d, dense d → dense (snd (addSummation name position d)))
  ∧ (∀ w h d, dense d → dense (snd (setSize w h d))).
Proof.
  cbv zeta. split; [intros; by apply addTensor_dense|].
  split; [done|]. split; [intros; by apply addSummation_dense|done].
Qed.
End Dense.

(** ** Several indices of the same name on one tensor *)

Section FirstMatch.
Context {Line : Type}.
Implicit Types d : TensorDiagramCore Line.

Lemma occurrences_alter old new j index (l : list Index.t) :
  list_find (λ ind, Index.name ind = old) l = Some (j, index) →
  new ≠ old →
  length (filter (λ ind, Index.name ind = old)
                 (alter (Index.setName new) j l)) =
  pred (length (filter (λ ind, Index.name ind = old) l)).
Proof.
  intros Hfind Hne. revert j Hfind.
  induction l as [|x l IH]; intros j; [done|]. csimpl.
  destruct (decide (Index.name x = old)) as [Hx|Hx].
  - intros [= <- <-]. simpl.
    rewrite filter_cons_False by done. by rewrite filter_cons_True.
  - intros ([j' index'] & Hfind & Heq)%fmap_Some.
    simpl in Heq. injection Heq as -> ->. simpl.
    rewrite !filter_cons_False by done. by apply IH.
Qed.

Lemma occurrences_not_carried name tensor :
  ¬ carries name tensor → occurrences name tensor = 0%nat.
Proof.
  intros Hnot. unfold occurrences. rewrite filter_none; [done|].
  apply Forall_forall. intros index Hin Hname. apply Hnot.
  apply Exists_exists. by exists index.
Qed.

(** X11.  The last branch of [addSummation] renames the first match only:
    with three or more relevant tensors and a position, every tensor of the
    diagram has afterwards one index named [name] fewer than before, if it
    had any.  So a tensor with two indices named [name] still carries
    [name] after the call. *)
Theorem addSummation_star_first_match name p d :
  (3 ≤ length (filter (carries name) (tensors d)))%nat →
  ∃ d',
    addSummation name (Some p) d = (Return tt, d')
    ∧ ∀ r tensor,
        tensors d !! r = Some tensor →
        ∃ tensor',
          tensors d' !! r = Some tensor'
          ∧ occurrences name tensor' = pred (occurrences name tensor)
          ∧ ((2 ≤ occurrences name tensor)%nat → carries name tensor').
Proof.
  intros Hmany. rewrite <- length_relevantTensors in Hmany.
  destruct (run_addSummation_star name p d Hmany)
    as (ts' & added & Hrun & Hlen & Hkeep & Hrenamed & Hdot & Hadded).
  eexists. split; [exact Hrun|]. simpl. intros r tensor Hr.
  assert (Hcarried : ∀ t : Tensor.t,
            (1 ≤ occurrences name t)%nat → carries name t).
  { intros t Hocc. destruct (decide (carries name t)) as [|Hnot]; [done|].
    rewrite (occurrences_not_carried _ _ Hnot) in Hocc. lia. }
  assert (Hgoal : ∃ tensor', ts' !! r = Some tensor'
            ∧ occurrences name tensor' = pred (occurrences name tensor)).
  { destruct (decide (r ∈ relevantTensors name d)) as [Hin|Hnot].
    - apply list_elem_of_lookup_1 in Hin as [k Hk].
      destruct (Hrenamed k r tensor Hk Hr) as (j & index & Hfind & Hts' & _).
      eexists. split; [exact Hts'|]. unfold occurrences. simpl.
      apply (occurrences_alter _ _ _ _ _ Hfind), disambiguated_ne.
    - exists tensor. split.
      + rewrite Hkeep; [done..|]. apply lookup_lt_Some in Hr. lia.
      + rewrite occurrences_not_carried; [done|].
        intros Hc. apply Hnot, elem_of_relevantTensors. by exists tensor. }
  destruct Hgoal as (tensor' & Hr' & Hocc). exists tensor'.
  split; [done|]. split; [done|]. intros Htwo. apply Hcarried. lia.
Qed.
End FirstMatch.

(** ** The formulas and the builder *)

Section FormulasAndBuilder.
Context {Line : Type}.
Implicit Types d : TensorDiagramCore Line.

Lemma append_assoc (s t u : string) : (s +:+ t) +:+ u = s +:+ t +:+ u.
Proof.
  induction s as [|a s IH]; [done|].
  change (String a ((s +:+ t) +:+ u) = String a (s +:+ t +:+ u)).
  by rewrite IH.
Qed.

Lemma join_empty_snoc (l : list string) (x : string) :
  join "" (l ++ [x]) = join "" l +:+ x.
Proof.
  unfold join. induction l as [|a l IH]; [done|].
  change ((a :: l) ++ [x]) with (a :: (l ++ [x])).
  destruct l as [|b l]; [done|].
  change (String.concat "" (a :: (b :: l) ++ [x]))
    with (a +:+ "" +:+ String.concat "" ((b :: l) ++ [x])).
  change (String.concat "" (a :: b :: l))
    with (a +:+ "" +:+ String.concat "" (b :: l)).
  rewrite IH. simpl. by rewrite append_assoc.
Qed.

Lemma firstEncounters_filter contracted all :
  firstEncounters contracted all =
  firstEncounters [] (filter (λ s, s ∉ contracted) all).
Proof.
  induction all as [|x all IH] using rev_ind; [done|].
  rewrite filter_app, filter_cons, firstEncounters_snoc, IH. simpl.
  destruct (decide (x ∉ contracted)) as [Hx|Hx].
  - rewrite firstEncounters_snoc. f_equal.
    destruct (decide ((x ∉ contracted) ∧ (x ∉ all))) as [[_ Hall]|Hnot].
    + rewrite decide_True; [done|]. split; [apply not_elem_of_nil|].
      rewrite list_elem_of_filter. tauto.
    + rewrite decide_False; [done|]. intros [_ Hfil]. apply Hnot.
      split; [done|]. intros Hall. apply Hfil.
      by apply list_elem_of_filter.
  - rewrite decide_False by tauto. by rewrite !app_nil_r.
Qed.

Lemma firstEncounters_contract contracted name all :
  firstEncounters (contracted ++ [name]) all =
  filter (λ s, s ≠ name) (firstEncounters contracted all).
Proof.
  induction all as [|x all IH] using rev_ind; [done|].
  rewrite !firstEncounters_snoc, filter_app, IH. f_equal.
  destruct (decide ((x ∉ contracted) ∧ (x ∉ all))) as [[Hc Hall]|Hnot].
  - rewrite filter_cons. destruct (decide (x ≠ name)) as [Hne|Heq].
    + rewrite decide_True; [done|]. split; [|done].
      rewrite not_elem_of_app, list_elem_of_singleton. tauto.
    + rewrite decide_False; [done|]. intros [Hin _]. apply Hin.
      apply elem_of_app. right. apply list_elem_of_singleton.
      by destruct (decide (x = name)).
  - rewrite decide_False; [done|]. intros [Hin Hall]. apply Hnot.
    split; [|done]. intros Hc. apply Hin, elem_of_app. by left.
Qed.

Lemma names_filter (contracted : list string) (l : list Index.t) :
  Index.name <$> filter (λ index, Index.name index ∉ contracted) l =
  filter (λ s, s ∉ contracted) (Index.name <$> l).
Proof.
  induction l as [|x l IH]; [done|]. csimpl. rewrite !filter_cons.
  destruct (decide (Index.name x ∉ contracted)); csimpl; by rewrite IH.
Qed.

Lemma looseNames_filter d :
  looseNames d =
  filter (λ s, s ∉ contractionNames d) (allIndexNames d).
Proof.
  unfold looseNames, looseIndices, allIndexNames, contractionNames, indexNames.
  induction (tensors d) as [|tensor ts IH]; [done|]. csimpl.
  by rewrite filter_app, IH, names_filter.
Qed.

Lemma toFormulaEinsum_einsumWith d :
  toFormulaEinsum d =
  einsumWith d (collectFree (contractionNames d) (allIndexNames d)).
Proof.
  unfold toFormulaEinsum, einsumWith. by rewrite <- list_fmap_compose.
Qed.

(** X14.  The two derivations agree: the output names of
    [toFormulaEinsum] are the names of the indices that [looseIndices]
    returns, in the same order, each kept where it first occurs and dropped
    where it occurs again.  For the three tensors sharing ["k"], the last
    one with ["l"] too, the loose names are ["k"], ["k"], ["k"], ["l"] and
    the output names ["k"], ["l"]. *)
Theorem einsum_output_is_loose d :
  toFormulaEinsum d =
    "einsum('"
    +:+ String.concat ","
          ((λ tensor, String.concat "" (Index.name <$> Tensor.indices tensor))
             <$> tensors d)
    +:+ "->" +:+ String.concat "" (firstEncounters [] (looseNames d))
    +:+ "', "
    +:+ String.concat ", " (Tensor.name <$> tensors d) +:+ ")"
  ∧ NoDup (firstEncounters [] (looseNames d))
  ∧ (∀ s, s ∈ firstEncounters [] (looseNames d) ↔ s ∈ looseNames d)
  ∧ (∀ k, firstEncounters [] (looseNames d) !! k =
          omap id
            (imap (λ i s, if decide (s ∉ take i (looseNames d))
                          then Some s else None)
                  (looseNames d)) !! k)
  ∧ looseNames (@diagramStar Line) = ["k"; "k"; "k"; "l"]
  ∧ firstEncounters [] (looseNames (@diagramStar Line)) = ["k"; "l"].
Proof.
  split.
  { rewrite toFormulaEinsum_einsumWith, collectFree_firstEncounters.
    by rewrite firstEncounters_filter, looseNames_filter. }
  split; [apply firstEncounters_NoDup|].
  split.
  { intros s. rewrite elem_of_firstEncounters. split; [tauto|].
    intros ?. split; [done|apply not_elem_of_nil]. }
  split; [|split; reflexivity].
  intros k. unfold firstEncounters. f_equal. f_equal.
  apply imap_ext. intros i s _.
  destruct (decide (s ∉ take i (looseNames d))) as [Hs|Hs].
  - rewrite decide_True; [done|]. split; [apply not_elem_of_nil|done].
  - rewrite decide_False; [done|]. tauto.
Qed.

(** X15.  Recording a contraction under [name], whatever its two tensor
    indices, removes [name] from the output names of [toFormulaEinsum] and
    from the loose indices, appends [name] to the subscript of the sum of
    [toFormulaLaTeX], and changes nothing else in the three results. *)
Theorem addContraction_formulas i j name pos d :
  let d' := snd (addContraction i j name pos d) in
  let free := collectFree (contractionNames d) (allIndexNames d) in
  toFormulaEinsum d = einsumWith d free
  ∧ toFormulaEinsum d' = einsumWith d (filter (λ s, s ≠ name) free)
  ∧ toFormulaLaTeX d =
      "\sum_{" +:+ join "" (contractionNames d) +:+ "} " +:+ latexFactors d
  ∧ toFormulaLaTeX d' =
      "\sum_{" +:+ join "" (contractionNames d) +:+ name +:+ "} "
      +:+ latexFactors d
  ∧ looseIndices d' =
      filter (λ index, Index.name index ≠ name) <$> looseIndices d.
Proof.
  cbv zeta. rewrite run_addContraction.
  split; [apply toFormulaEinsum_einsumWith|]. split.
  { rewrite toFormulaEinsum_einsumWith. unfold contractionNames. simpl.
    rewrite fmap_app. simpl. fold (contractionNames d).
    by rewrite !collectFree_firstEncounters, firstEncounters_contract. }
  split; [done|]. split.
  { unfold toFormulaLaTeX. simpl. rewrite fmap_app. simpl.
    fold (contractionNames d). rewrite join_empty_snoc.
    by rewrite append_assoc. }
  unfold looseIndices. simpl. rewrite fmap_app. simpl.
  rewrite <- list_fmap_compose. apply list_fmap_ext. intros _ tensor _. simpl.
  rewrite list_filter_filter. apply list_filter_iff. intros index.
  rewrite not_elem_of_app, list_elem_of_singleton. tauto.
Qed.
End FormulasAndBuilder.

(** ** The names that the last branch of [addSummation] makes up *)

Section FreshNames.
Context {Line : Type}.
Implicit Types d : TensorDiagramCore Line.

Lemma append_inj (s t u : string) : s +:+ t = s +:+ u → t = u.
Proof.
  induction s as [|a s IH]; [done|].
  change (String a (s +:+ t) = String a (s +:+ u) → t = u).
  intros [= Heq]. by apply IH.
Qed.

Lemma disambiguated_inj (name : string) (k1 k2 : nat) :
  name +:+ pretty k1 = name +:+ pretty k2 → k1 = k2.
Proof. intros Heq%append_inj. by apply (inj pretty). Qed.

(** X10.  The contractions that the last branch of [addSummation]
    records, one per relevant tensor, have pairwise different names, none
    of them [name]; each ends at the new dot. *)
Theorem addSummation_star_names_distinct name p d :
  (3 ≤ length (filter (carries name) (tensors d)))%nat →
  ∃ d' added,
    addSummation name (Some p) d = (Return tt, d')
    ∧ contractions d' = contractions d ++ added
    ∧ length added = length (filter (carries name) (tensors d))
    ∧ NoDup (Contraction.name <$> added)
    ∧ Forall (λ c, Contraction.name c ≠ name
                   ∧ Contraction.target c = Some (length (tensors d)))
             added.
Proof.
  intros Hmany. rewrite <- length_relevantTensors in Hmany.
  destruct (run_addSummation_star name p d Hmany) as (ts' & added & Hrun & _).
  eexists _, _. split; [exact Hrun|]. simpl. split; [done|].
  split; [by rewrite length_imap, length_relevantTensors|]. split.
  - apply NoDup_alt. intros k1 k2 s.
    rewrite !list_lookup_fmap, !list_lookup_imap.
    intros (c1 & (r1 & _ & ->)%fmap_Some & ->)%fmap_Some.
    intros (c2 & (r2 & _ & ->)%fmap_Some & Heq)%fmap_Some.
    simpl in Heq. by apply (disambiguated_inj name).
  - apply Forall_lookup. intros k c.
    rewrite list_lookup_imap. intros (r & _ & ->)%fmap_Some. simpl.
    split; [apply disambiguated_ne|done].
Qed.
End FreshNames.

(** ** The further properties at concrete diagrams *)

Lemma opposite_involution_witness :
  opposite (opposite Pos.left) = Pos.left ∧ opposite Pos.left ≠ Pos.left.
Proof.
  assert (Hside : ∀ raw, Pos.left ≠ Pos.outside raw) by (intros raw; discriminate).
  destruct (opposite_involution Pos.left Hside) as (Hinv & Hne & _).
  split; [exact Hinv|exact Hne].
Defined.



Lemma addSummation_single_twice_witness :
  (addSummation "i" None;; addSummation "i" None) (@diagramUp Empty_set) =
  (Return tt,
   mkDiagram
     (tensors (@diagramUp Empty_set) ++
      [Tensor.mk 2 2 "dot" "dot" false "up" 20
         [Index.mk "i" Pos.down 0 true] 0])
     [Contraction.mk (Some 0%nat) (Some 1%nat) "i" Pos.up;
      Contraction.mk (Some 0%nat) (Some 1%nat) "i" Pos.up]
     [] 300 300).
Proof.
  assert (Hr : tensors (@diagramUp Empty_set) !! 0%nat =
               Some (Tensor.mk 2 3 "A" "circle" true "up" 20
                       [Index.mk "i" Pos.up 0 true] 0)) by reflexivity.
  assert (Honly : ∀ r' tensor',
    tensors (@diagramUp Empty_set) !! r' = Some tensor' →
    carries "i" tensor' → r' = 0%nat).
  { intros [|r'] tensor' Hr' _; [reflexivity|discriminate Hr']. }
  exact (addSummation_single_twice "i" None None diagramUp 0%nat _
           (Index.mk "i" Pos.up 0 true) 2 2 Pos.down 0
           Hr Honly eq_refl eq_refl).
Defined.

Lemma addSummation_failure_witness :
  addSummation "z" None (@diagramA Empty_set)
    = (Throw (NoMatchingIndexError "z"), diagramA)
  ∧ Forall (λ tensor, "z" ∉ indexNames tensor) (tensors (@diagramA Empty_set)).
Proof.
  assert (Hrun : addSummation "z" None (@diagramA Empty_set)
                 = (Throw (NoMatchingIndexError "z"), diagramA))
    by reflexivity.
  split; [exact Hrun|].
  destruct (addSummation_failure "z" None diagramA _ _ Hrun)
    as [_ [[_ Hnone]|[(r & tensor & index & raw & Heq & _)|[Heq _]]]].
  - exact Hnone.
  - discriminate Heq.
  - discriminate Heq.
Defined.

Lemma addTensor_failure_witness :
  addTensor "A" (Some RelPos.right) [] [] [] [] TensorOpts.empty
    (@new Empty_set) = (Throw TypeError, new)
  ∧ tensors (@new Empty_set) = [].
Proof.
  assert (Hrun : addTensor "A" (Some RelPos.right) [] [] [] []
                   TensorOpts.empty (@new Empty_set) = (Throw TypeError, new))
    by reflexivity.
  split; [exact Hrun|].
  destruct (addTensor_failure "A" (Some RelPos.right) [] [] [] []
              TensorOpts.empty new _ _ Hrun) as [_ [_ [Heq|[Hempty _]]]].
  - discriminate Heq.
  - exact Hempty.
Defined.

Lemma builder_keeps_dense_orders_witness :
  Forall (λ tensor, denseOrders (Tensor.indices tensor))
         (tensors (snd (addSummation "k" (Some (XY.mk 5 5))
                          (@diagramStar Empty_set)))).
Proof.
  assert (Hdense : Forall (λ tensor, denseOrders (Tensor.indices tensor))
                          (tensors (@diagramStar Empty_set))).
  { repeat constructor; intros []; reflexivity. }
  exact (proj1 (proj2 (proj2 builder_keeps_dense_orders))
           "k" (Some (XY.mk 5 5)) diagramStar Hdense).
Defined.

(** The first tensor of the example has two indices named ["k"]: after the
    call it still carries ["k"]. *)
Lemma addSummation_star_first_match_witness :
  ∃ d' tensor',
    addSummation "k" (Some (XY.mk 5 5)) (@diagramDouble Empty_set)
      = (Return tt, d')
    ∧ tensors d' !! 0%nat = Some tensor'
    ∧ occurrences "k" tensor' = 1%nat
    ∧ carries "k" tensor'.
Proof.
  assert (Hmany : (3 ≤ length (filter (carries "k")
                                     (tensors (@diagramDouble Empty_set))))%nat)
    by compute_done.
  destruct (addSummation_star_first_match "k" (XY.mk 5 5) diagramDouble Hmany)
    as (d' & Hrun & Hall).
  destruct (Hall 0%nat _ eq_refl) as (tensor' & Hr' & Hocc & Hcarries).
  exists d', tensor'. split; [exact Hrun|]. split; [exact Hr'|].
  split; [exact Hocc|]. apply Hcarries. compute_done.
Defined.

Lemma addSummation_star_names_distinct_witness :
  ∃ d' added,
    addSummation "k" (Some (XY.mk 5 5)) (@diagramStar Empty_set) = (Return tt, d')
    ∧ contractions d' = added
    ∧ length added = 3%nat
    ∧ NoDup (Contraction.name <$> added).
Proof.
  assert (Hmany : (3 ≤ length (filter (carries "k")
                                     (tensors (@diagramStar Empty_set))))%nat)
    by compute_done.
  destruct (addSummation_star_names_distinct "k" (XY.mk 5 5) diagramStar Hmany)
    as (d' & added & Hrun & Hcs & Hlen & Hnodup & _).
  exists d', added. split; [exact Hrun|]. split; [exact Hcs|].
  split; [exact Hlen|exact Hnodup].
Defined.
